(** * Centurion: a shallow embedding of the wrapper classes

    The development follows the sources of the repository:
    - [thread.hpp]      : the [thread] class (construction, join, detach,
                          destruction) over the native thread calls;
    - [color.hpp]       : the [color] class, [from_hsv], [from_hsl], [blend]
                          and the comparison operators;
    - [font_cache.hpp]  : the glyph and string caches of [font_cache];
    - [surface.cpp]     : the ownership of the native surface (move
                          assignment, destruction) and [set_pixel];
    - the unit tests of [semaphore] and of [get_union], whose headers are
      not among the sources.

    The first part holds the definitions, the second part the theorems. *)

From Stdlib Require Import ZArith QArith Qround Qabs Qpower Qminmax Lia Lqa List Bool
  String Sorted.
From stdpp Require Import gmap.
Import ListNotations.

Open Scope Z_scope.

(** ** Outcomes of C++ calls

    A call returns a value, leaves by a C++ exception, or stops at a
    failed [assert]. *)

Inductive exception : Type :=
| sdl_error
| centurion_exception
| out_of_range
| bad_optional_access.

Inductive outcome (A : Type) : Type :=
| Returns (a : A)
| Throws (e : exception)
| AssertionFailed.

Arguments Returns {A} a.
Arguments Throws {A} e.
Arguments AssertionFailed {A}.

(** Sequencing of calls that may not return. *)
Definition and_then {A B} (r : outcome A) (k : A -> outcome B) : outcome B :=
  match r with
  | Returns a => k a
  | Throws e => Throws e
  | AssertionFailed => AssertionFailed
  end.

(** [assert(b)] *)
Definition check (b : bool) : outcome unit :=
  if b then Returns tt else AssertionFailed.

(** ** thread.hpp *)

Module Thread.

(** [SDL_Thread*]: an address, [0] being [nullptr]. *)
Definition pointer := Z.
Definition nullptr : pointer := 0.

(** The calls into the native library, in the order they are made. *)
Inductive sdl_call : Type :=
| SDL_CreateThread (task : Z) (name : string) (data : pointer)
| SDL_WaitThread (thread : pointer)
| SDL_DetachThread (thread : pointer).

Definition trace := list sdl_call.

(** Computations that call the native library: state passing over the
    trace of calls, with the three outcomes. *)
Definition M (A : Type) : Type := trace -> outcome A * trace.

Definition ret {A} (a : A) : M A := fun tr => (Returns a, tr).

Definition bind {A B} (m : M A) (k : A -> M B) : M B :=
  fun tr =>
    match m tr with
    | (Returns a, tr') => k a tr'
    | (Throws e, tr') => (Throws e, tr')
    | (AssertionFailed, tr') => (AssertionFailed, tr')
    end.

Definition throw {A} (e : exception) : M A := fun tr => (Throws e, tr).

Definition assert (b : bool) : M unit := fun tr => (check b, tr).

Definition call (c : sdl_call) : M unit := fun tr => (Returns tt, tr ++ [c]).

Notation "x <- m ;; k" := (bind m (fun x => k))
  (at level 100, m at next level, right associativity).
Notation "m ;;; k" := (bind m (fun _ => k))
  (at level 100, right associativity).

(** class thread: the three data members. *)
Record thread : Type := mk_thread {
  m_thread : pointer;
  m_joined : bool;
  m_detached : bool
}.

Section Native.

(** What the native library answers: the handle returned by
    [SDL_CreateThread] and the status written by [SDL_WaitThread]. *)
Variable created : Z -> string -> pointer -> pointer.
Variable exit_status : pointer -> Z.

(** thread::thread(task, name, data): [m_thread] is initialised with the
    result of [SDL_CreateThread], the flags with [false]. *)
Definition thread_ctor (task : Z) (name : string) (data : pointer) : M thread :=
  call (SDL_CreateThread task name data) ;;;
  let this := mk_thread (created task name data) false false in
  if m_thread this =? nullptr
  then throw sdl_error
  else ret this.

(** thread::detach *)
Definition detach (this : thread) : M thread :=
  if m_joined this || m_detached this
  then ret this
  else
    call (SDL_DetachThread (m_thread this)) ;;;
    let this := mk_thread (m_thread this) (m_joined this) true in
    assert (negb (Bool.eqb (m_detached this) (m_joined this))) ;;;
    ret this.

(** thread::join: the status code and the object afterwards. *)
Definition join (this : thread) : M (Z * thread) :=
  if m_joined this || m_detached this
  then ret (0, this)
  else
    call (SDL_WaitThread (m_thread this)) ;;;
    let status := exit_status (m_thread this) in
    let this := mk_thread (m_thread this) true (m_detached this) in
    assert (negb (Bool.eqb (m_detached this) (m_joined this))) ;;;
    ret (status, this).

(** thread::joinable *)
Definition joinable (this : thread) : bool :=
  negb (m_joined this) && negb (m_detached this).

(** thread::was_joined, thread::was_detached *)
Definition was_joined (this : thread) : bool := m_joined this.
Definition was_detached (this : thread) : bool := m_detached this.

(** thread::~thread *)
Definition thread_dtor (this : thread) : M thread :=
  if joinable this
  then r <- join this ;; ret (snd r)
  else ret this.

(** The states a thread object can be in: what the constructor returns,
    closed under [join] and [detach]. *)
Inductive reachable : thread -> Prop :=
| reach_ctor task name data tr this tr' :
    thread_ctor task name data tr = (Returns this, tr') ->
    reachable this
| reach_join this tr status this' tr' :
    reachable this ->
    join this tr = (Returns (status, this'), tr') ->
    reachable this'
| reach_detach this tr this' tr' :
    reachable this ->
    detach this tr = (Returns this', tr') ->
    reachable this'.

(** The calls a program makes on a thread object between its construction
    and its destruction. *)
Inductive operation : Type := do_join | do_detach.

Definition perform (o : operation) (this : thread) : M thread :=
  match o with
  | do_join => r <- join this ;; ret (snd r)
  | do_detach => detach this
  end.

Fixpoint perform_all (ops : list operation) (this : thread) : M thread :=
  match ops with
  | [] => ret this
  | o :: rest => this' <- perform o this ;; perform_all rest this'
  end.

(** The life of a thread object: it is constructed, the operations are
    called on it in order, and it is destroyed. *)
Definition lifetime (task : Z) (name : string) (data : pointer)
    (ops : list operation) : M thread :=
  this <- thread_ctor task name data ;;
  this' <- perform_all ops this ;;
  thread_dtor this'.

End Native.

(** The joins a trace records. *)
Definition is_wait (c : sdl_call) : bool :=
  match c with SDL_WaitThread _ => true | _ => false end.

Definition joins (tr : trace) : list sdl_call := List.filter is_wait tr.

End Thread.

(** ** color.hpp *)

Module Color.

Open Scope Q_scope.

(** *** Arithmetic on [double]

    A [double] is modelled by the rational it denotes; every arithmetic
    operation of the source is the exact operation followed by the
    rounding [rnd] of the format.  Comparisons, [std::fabs], [std::fmod]
    and [std::round] are exact on doubles and need no rounding.  Infinities
    and NaN do not arise from the inputs the functions accept. *)

Definition fle (x y : Q) : bool := Qle_bool x y.
Definition flt (x y : Q) : bool := negb (Qle_bool y x).

(** Truncation toward zero. *)
Definition trunc (x : Q) : Z :=
  if Qle_bool 0 x then Qfloor x else Qceiling x.

(** std::fabs *)
Definition fabs (x : Q) : Q := Qabs x.

(** std::fmod(x, y): [x - n * y], [n] being [x / y] truncated. *)
Definition fmod (x y : Q) : Q := x - inject_Z (trunc (x / y)) * y.

(** std::round: to the nearest integer, halfway cases away from zero. *)
Definition round (x : Q) : Q :=
  inject_Z (if Qle_bool 0 x then Qfloor (x + (1 # 2)) else Qceiling (x - (1 # 2))).

(** static_cast<u8>(d): the fractional part is dropped; a value that does
    not fit is reduced modulo 256. *)
Definition static_cast_u8 (d : Q) : Z := (trunc d mod 256)%Z.

(** *** The rounding of binary64 *)

(** [floor (log2 x)] for a positive rational [x]. *)
Definition ilog2 (x : Q) : Z :=
  let k := (Z.log2 (Qnum x) - Z.log2 (Zpos (Qden x)))%Z in
  if Qle_bool (2 ^ k) x then k else (k - 1)%Z.

(** The nearest integer, ties to the even one. *)
Definition nearest_even (x : Q) : Z :=
  let f := Qfloor x in
  let d := x - inject_Z f in
  if flt d (1 # 2) then f
  else if flt (1 # 2) d then (f + 1)%Z
  else if Z.even f then f else (f + 1)%Z.

(** The exponent of the last place of [x]: 52 places below the leading
    one, and no lower than that of the subnormal numbers. *)
Definition exponent (x : Q) : Z := Z.max (ilog2 (Qabs x) - 52) (-1074).

(** Rounding to the nearest binary64 number, ties to even: the multiple of
    the last place nearest to [x].  The exponent is not bounded above; no
    value of the functions below comes near the overflow threshold. *)
Definition binary64 (x : Q) : Q :=
  if Qeq_bool x 0 then 0
  else Qred (inject_Z (nearest_even (x / 2 ^ exponent x)) * 2 ^ exponent x).

(** Arithmetic without rounding error. *)
Definition exact (x : Q) : Q := x.

(** The unit roundoff of binary64 and half its smallest subnormal. *)
Definition eps : Q := 1 # 2 ^ 53.
Definition eta : Q := 1 # 2 ^ 1075.

(** What the proofs use of a rounding: it is monotone, it leaves the
    integers of magnitude up to [2^53] as they are, and its error is at
    most the relative error [eps] of the format plus [eta]. *)
Definition rounding (rnd : Q -> Q) : Prop :=
  (forall x y, x <= y -> rnd x <= rnd y) /\
  (forall n : Z, (Z.abs n <= 2 ^ 53)%Z -> rnd (inject_Z n) == inject_Z n) /\
  (forall x, Qabs (rnd x - x) <= Qabs x * eps + eta).

(** *** The color class *)

(** SDL_Color: four [Uint8] fields. *)
Record SDL_Color : Type := mk_SDL_Color { r : Z; g : Z; b : Z; a : Z }.

(** SDL_MessageBoxColor: three [Uint8] fields. *)
Record SDL_MessageBoxColor : Type := mk_SDL_MessageBoxColor { mr : Z; mg : Z; mb : Z }.

Record color : Type := mk_color { m_color : SDL_Color }.

(** A value of type [u8]. *)
Definition is_u8 (z : Z) : Prop := (0 <= z < 256)%Z.

(** Every component of a color is a [u8]. *)
Definition valid (c : color) : Prop :=
  is_u8 (r (m_color c)) /\ is_u8 (g (m_color c)) /\
  is_u8 (b (m_color c)) /\ is_u8 (a (m_color c)).

(** color::max *)
Definition max : Z := 255%Z.

(** color::color() *)
Definition color_default : color := mk_color (mk_SDL_Color 0 0 0 max).

(** color::color(u8 red, u8 green, u8 blue, u8 alpha = max()) *)
Definition color_rgba (red green blue alpha : Z) : color :=
  mk_color (mk_SDL_Color red green blue alpha).

Definition color_rgb (red green blue : Z) : color := color_rgba red green blue max.

(** color::color(const SDL_Color&) *)
Definition color_of_SDL_Color (c : SDL_Color) : color := mk_color c.

(** color::color(const SDL_MessageBoxColor&) *)
Definition color_of_SDL_MessageBoxColor (c : SDL_MessageBoxColor) : color :=
  mk_color (mk_SDL_Color (mr c) (mg c) (mb c) max).

(** color::red, color::green, color::blue, color::alpha *)
Definition red (c : color) : Z := r (m_color c).
Definition green (c : color) : Z := g (m_color c).
Definition blue (c : color) : Z := b (m_color c).
Definition alpha (c : color) : Z := a (m_color c).

(** color::operator SDL_Color *)
Definition to_SDL_Color (c : color) : SDL_Color :=
  mk_SDL_Color (red c) (green c) (blue c) (alpha c).

(** color::operator SDL_MessageBoxColor *)
Definition to_SDL_MessageBoxColor (c : color) : SDL_MessageBoxColor :=
  mk_SDL_MessageBoxColor (red c) (green c) (blue c).

(** color::with_alpha *)
Definition with_alpha (c : color) (alpha : Z) : color :=
  color_rgba (red c) (green c) (blue c) alpha.

(** operator==(const color&, const color&) *)
Definition eq_color (lhs rhs : color) : bool :=
  (red lhs =? red rhs)%Z && (green lhs =? green rhs)%Z &&
  (blue lhs =? blue rhs)%Z && (alpha lhs =? alpha rhs)%Z.

(** operator==(const color&, const SDL_Color&) *)
Definition eq_color_SDL (lhs : color) (rhs : SDL_Color) : bool :=
  (red lhs =? r rhs)%Z && (green lhs =? g rhs)%Z &&
  (blue lhs =? b rhs)%Z && (alpha lhs =? a rhs)%Z.

(** operator==(const SDL_Color&, const color&) *)
Definition eq_SDL_color (lhs : SDL_Color) (rhs : color) : bool := eq_color_SDL rhs lhs.

(** operator!=(const color&, const SDL_Color&) *)
Definition neq_color_SDL (lhs : color) (rhs : SDL_Color) : bool :=
  negb (eq_color_SDL lhs rhs).

(** operator==(const color&, const SDL_MessageBoxColor&): the alpha
    component is not compared. *)
Definition eq_color_MessageBox (lhs : color) (rhs : SDL_MessageBoxColor) : bool :=
  (red lhs =? mr rhs)%Z && (green lhs =? mg rhs)%Z && (blue lhs =? mb rhs)%Z.

(** operator==(const SDL_MessageBoxColor&, const color&) *)
Definition eq_MessageBox_color (lhs : SDL_MessageBoxColor) (rhs : color) : bool :=
  eq_color_MessageBox rhs lhs.

(** operator!=(const color&, const color&) *)
Definition neq_color (lhs rhs : color) : bool := negb (eq_color lhs rhs).

(** operator!=(const SDL_Color&, const color&) *)
Definition neq_SDL_color (lhs : SDL_Color) (rhs : color) : bool :=
  negb (eq_SDL_color lhs rhs).

(** operator!=(const color&, const SDL_MessageBoxColor&) and its mirror *)
Definition neq_color_MessageBox (lhs : color) (rhs : SDL_MessageBoxColor) : bool :=
  negb (eq_color_MessageBox lhs rhs).
Definition neq_MessageBox_color (lhs : SDL_MessageBoxColor) (rhs : color) : bool :=
  negb (eq_MessageBox_color lhs rhs).

(** color::set_red, set_green, set_blue, set_alpha: the color afterwards. *)
Definition set_red (c : color) (red : Z) : color :=
  mk_color (mk_SDL_Color red (g (m_color c)) (b (m_color c)) (a (m_color c))).
Definition set_green (c : color) (green : Z) : color :=
  mk_color (mk_SDL_Color (r (m_color c)) green (b (m_color c)) (a (m_color c))).
Definition set_blue (c : color) (blue : Z) : color :=
  mk_color (mk_SDL_Color (r (m_color c)) (g (m_color c)) blue (a (m_color c))).
Definition set_alpha (c : color) (alpha : Z) : color :=
  mk_color (mk_SDL_Color (r (m_color c)) (g (m_color c)) (b (m_color c)) alpha).

(** color::get *)
Definition get (c : color) : SDL_Color := m_color c.

(** An if / else-if chain without a final else: the value of the first
    branch whose condition holds, and the initial value when none does. *)
Fixpoint select {A} (branches : list (bool * A)) (initial : A) : A :=
  match branches with
  | [] => initial
  | (cond, v) :: rest => if cond then v else select rest initial
  end.

(** The conditions of a chain, and how many of them hold. *)
Definition conditions {A} (branches : list (bool * A)) : list bool := map fst branches.

Definition holding (conds : list bool) : nat := length (List.filter (fun c : bool => c) conds).

Section Rounded.

Variable rnd : Q -> Q.

Definition fadd (x y : Q) : Q := rnd (x + y).
Definition fsub (x y : Q) : Q := rnd (x - y).
Definition fmul (x y : Q) : Q := rnd (x * y).
Definition fdiv (x y : Q) : Q := rnd (x / y).

(** The six sectors of [from_hsv]: (red, green, blue) in each. *)
Definition hsv_branches (hp chroma x : Q) : list (bool * (Q * Q * Q)) :=
  [ (fle 0 hp && fle hp 1, (chroma, x, 0));
    (flt 1 hp && fle hp 2, (x, chroma, 0));
    (flt 2 hp && fle hp 3, (0, chroma, x));
    (flt 3 hp && fle hp 4, (0, x, chroma));
    (flt 4 hp && fle hp 5, (x, 0, chroma));
    (flt 5 hp && fle hp 6, (chroma, 0, x)) ].

(** The entry assertions of [from_hsv] and [from_hsl]. *)
Definition entry_assertions (hue saturation value : Q) : bool :=
  fle 0 hue && fle hue 360 &&
  fle 0 saturation && fle saturation 100 &&
  fle 0 value && fle value 100.

(** color::from_hsv *)
Definition from_hsv (hue saturation value : Q) : outcome color :=
  and_then (check (entry_assertions hue saturation value)) (fun _ =>
  let v := fdiv value 100 in
  let chroma := fmul v (fdiv saturation 100) in
  let hp := fdiv hue 60 in
  let x := fmul chroma (fsub 1 (fabs (fsub (fmod hp 2) 1))) in
  let '(red, green, blue) := select (hsv_branches hp chroma x) (0, 0, 0) in
  let m := fsub v chroma in
  let r := static_cast_u8 (round (fmul (fadd red m) 255)) in
  let g := static_cast_u8 (round (fmul (fadd green m) 255)) in
  let b := static_cast_u8 (round (fmul (fadd blue m) 255)) in
  Returns (color_rgb r g b)).

(** The six sectors of [from_hsl]. *)
Definition hsl_branches (hp chroma x : Q) : list (bool * (Q * Q * Q)) :=
  [ (fle 0 hp && flt hp 1, (chroma, x, 0));
    (fle 1 hp && flt hp 2, (x, chroma, 0));
    (fle 2 hp && flt hp 3, (0, chroma, x));
    (fle 3 hp && flt hp 4, (0, x, chroma));
    (fle 4 hp && flt hp 5, (x, 0, chroma));
    (fle 5 hp && flt hp 6, (chroma, 0, x)) ].

(** color::from_hsl *)
Definition from_hsl (hue saturation lightness : Q) : outcome color :=
  and_then (check (entry_assertions hue saturation lightness)) (fun _ =>
  let s := fdiv saturation 100 in
  let l := fdiv lightness 100 in
  let chroma := fmul (fsub 1 (fabs (fsub (fmul 2 l) 1))) s in
  let hp := fdiv hue 60 in
  let x := fmul chroma (fsub 1 (fabs (fsub (fmod hp 2) 1))) in
  let '(red, green, blue) := select (hsl_branches hp chroma x) (0, 0, 0) in
  let m := fsub l (fdiv chroma 2) in
  let r := static_cast_u8 (round (fmul (fadd red m) 255)) in
  let g := static_cast_u8 (round (fmul (fadd green m) 255)) in
  let b := static_cast_u8 (round (fmul (fadd blue m) 255)) in
  Returns (color_rgb r g b)).

(** The last steps of a component of [from_hsv] and [from_hsl], named for
    the proofs: [static_cast<u8>(std::round((c + m) * 255.0))]. *)
Definition component (c m : Q) : Z :=
  static_cast_u8 (round (fmul (fadd c m) 255)).

(** One component of [blend]. *)
Definition blend_component (ca cb : Z) (bias invBias : Q) : Z :=
  static_cast_u8 (round (fadd (fmul (inject_Z ca) invBias) (fmul (inject_Z cb) bias))).

(** blend(a, b, bias) *)
Definition blend (a b : color) (bias : Q) : outcome color :=
  and_then (check (fle 0 bias)) (fun _ =>
  and_then (check (fle bias 1)) (fun _ =>
  let invBias := fsub 1 bias in
  Returns (color_rgba (blend_component (red a) (red b) bias invBias)
                      (blend_component (green a) (green b) bias invBias)
                      (blend_component (blue a) (blue b) bias invBias)
                      (blend_component (alpha a) (alpha b) bias invBias)))).

End Rounded.

(** Red, green and blue are all zero. *)
Definition colorless (rgb : Q * Q * Q) : Prop :=
  fst (fst rgb) == 0 /\ snd (fst rgb) == 0 /\ snd rgb == 0.

(** The color constants the tests compare with. *)
Definition black : color := color_rgb 0 0 0.
Definition white : color := color_rgb 255 255 255.
Definition red_ : color := color_rgb 255 0 0.
Definition lime : color := color_rgb 0 255 0.
Definition blue_ : color := color_rgb 0 0 255.
Definition gray : color := color_rgb 128 128 128.
Definition dark_orchid : color := color_rgb 153 50 204.
Definition turquoise : color := color_rgb 64 224 208.
Definition crimson : color := color_rgb 220 20 60.
Definition light_pink : color := color_rgb 255 182 193.
Definition thistle : color := color_rgb 216 191 216.

End Color.

(** ** font_cache.hpp *)

Module FontCache.

(** [unicode]: the 16-bit code unit that [TTF_RenderGlyph_Blended] takes. *)
Abbreviation unicode := Z.
Definition is_unicode (ch : Z) : Prop := 0 <= ch < 65536.

(** The printable characters of Latin-1: the ranges of add_basic_latin and
    add_latin1_supplement. *)
Definition printable_latin1 (ch : Z) : Prop :=
  32 <= ch < 127 \/ 160 <= ch < 256.

(** The value of a 16-bit unsigned computation. *)
Definition u16 (z : Z) : Z := z mod 65536.

(** [hash_id]: an unsigned identifier. *)
Abbreviation hash_id := Z.

(** glyph_metrics: the five metrics of a glyph. *)
Record glyph_metrics : Type := mk_glyph_metrics {
  minX : Z; maxX : Z; minY : Z; maxY : Z; advance : Z
}.

(** class font, as far as the cache uses it: the native handle and the
    answers of [is_glyph_provided] and [get_metrics]. *)
Record font : Type := mk_font {
  get : Z;
  is_glyph_provided : unicode -> bool;
  get_metrics : unicode -> option glyph_metrics
}.

(** class surface: the owned [SDL_Surface*]. *)
Record surface : Type := mk_surface { m_surface : Z }.

(** surface::surface(owner<SDL_Surface*>), of surface.cpp *)
Definition surface_ctor (ptr : Z) : outcome surface :=
  if ptr =? 0 then Throws centurion_exception else Returns (mk_surface ptr).

(** std::optional::value *)
Definition value {A} (o : option A) : outcome A :=
  match o with
  | Some v => Returns v
  | None => Throws bad_optional_access
  end.

Section Cache.

(** Textures and renderers belong to the native library. *)
Variable texture : Type.
Variable Renderer : Type.

(** The arguments of the twelve ways to render a string. *)
Inductive rendering : Type :=
| blended_utf8 (str : string)
| blended_wrapped_utf8 (str : string) (wrap : Z)
| shaded_utf8 (str : string) (background : Color.color)
| solid_utf8 (str : string)
| blended_latin1 (str : string)
| blended_wrapped_latin1 (str : string) (wrap : Z)
| shaded_latin1 (str : string) (background : Color.color)
| solid_latin1 (str : string)
| blended_unicode (str : list unicode)
| blended_wrapped_unicode (str : list unicode) (wrap : Z)
| shaded_unicode (str : list unicode) (background : Color.color)
| solid_unicode (str : list unicode).

(** What the renderer and the native library answer:
    - [get_color]: basic_renderer::get_color;
    - [render]: the renderer's [render_*] member for each rendering, which
      returns a texture or throws;
    - [TTF_RenderGlyph_Blended]: the surface pointer, [0] on failure;
    - [texture_ctor]: texture::texture(renderer, surface). *)
Variable get_color : Renderer -> Color.color.
Variable render : Renderer -> rendering -> font -> outcome texture.
Variable TTF_RenderGlyph_Blended : Z -> unicode -> Color.SDL_Color -> Z.
Variable texture_ctor : Renderer -> surface -> outcome texture.

(** struct font_cache::glyph_data *)
Record glyph_data : Type := mk_glyph_data {
  cached : texture;
  metrics : glyph_metrics
}.

(** class font_cache: the font and the two maps. *)
Record font_cache : Type := mk_font_cache {
  m_font : font;
  m_glyphs : gmap Z glyph_data;
  m_strings : gmap Z texture
}.

(** font_cache::font_cache(font&&): both maps empty. *)
Definition font_cache_ctor (f : font) : font_cache := mk_font_cache f ∅ ∅.

(** font_cache::get_font *)
Definition get_font (this : font_cache) : font := m_font this.

(** std::unordered_map::emplace: nothing happens when the key is there. *)
Definition emplace {V} (k : Z) (v : V) (m : gmap Z V) : gmap Z V :=
  match m !! k with
  | Some _ => m
  | None => <[k := v]> m
  end.

(** std::unordered_map::at *)
Definition map_at {V} (m : gmap Z V) (k : Z) : outcome V :=
  match m !! k with
  | Some v => Returns v
  | None => Throws out_of_range
  end.

(** Modelled from the spec: font_cache::store is declared in the header and
    defined in font_cache.cpp, which is not among the sources.  The header
    says of every store function that any previous cached string associated
    with the supplied ID will be overwritten, and the spec that there is no
    invalidation logic beyond explicit overwrite. *)
Definition store (id : hash_id) (tex : texture) (this : font_cache) : font_cache :=
  mk_font_cache (m_font this) (m_glyphs this) (<[id := tex]> (m_strings this)).

(** font_cache::store_blended_utf8 and its eleven siblings: each renders
    with the renderer's member of the same name and stores the result. *)
Definition store_rendered (id : hash_id) (what : rendering) (renderer : Renderer)
    (this : font_cache) : outcome font_cache :=
  and_then (render renderer what (get_font this)) (fun tex =>
  Returns (store id tex this)).

Definition store_blended_utf8 id str renderer :=
  store_rendered id (blended_utf8 str) renderer.
Definition store_blended_wrapped_utf8 id str renderer wrap :=
  store_rendered id (blended_wrapped_utf8 str wrap) renderer.
Definition store_shaded_utf8 id str renderer background :=
  store_rendered id (shaded_utf8 str background) renderer.
Definition store_solid_utf8 id str renderer :=
  store_rendered id (solid_utf8 str) renderer.
Definition store_blended_latin1 id str renderer :=
  store_rendered id (blended_latin1 str) renderer.
Definition store_blended_wrapped_latin1 id str renderer wrap :=
  store_rendered id (blended_wrapped_latin1 str wrap) renderer.
Definition store_shaded_latin1 id str renderer background :=
  store_rendered id (shaded_latin1 str background) renderer.
Definition store_solid_latin1 id str renderer :=
  store_rendered id (solid_latin1 str) renderer.
Definition store_blended_unicode id str renderer :=
  store_rendered id (blended_unicode str) renderer.
Definition store_blended_wrapped_unicode id str renderer wrap :=
  store_rendered id (blended_wrapped_unicode str wrap) renderer.
Definition store_shaded_unicode id str renderer background :=
  store_rendered id (shaded_unicode str background) renderer.
Definition store_solid_unicode id str renderer :=
  store_rendered id (solid_unicode str) renderer.

(** font_cache::has_stored *)
Definition has_stored (this : font_cache) (id : hash_id) : bool :=
  match m_strings this !! id with Some _ => true | None => false end.

(** font_cache::get_stored *)
Definition get_stored (this : font_cache) (id : hash_id) : outcome texture :=
  map_at (m_strings this) id.

(** font_cache::has *)
Definition has (this : font_cache) (glyph : unicode) : bool :=
  match m_glyphs this !! glyph with Some _ => true | None => false end.

(** font_cache::at, font_cache::operator[] *)
Definition at_ (this : font_cache) (glyph : unicode) : outcome glyph_data :=
  map_at (m_glyphs this) glyph.

(** font_cache::create_glyph_texture *)
Definition create_glyph_texture (this : font_cache) (renderer : Renderer)
    (glyph : unicode) : outcome texture :=
  and_then (surface_ctor (TTF_RenderGlyph_Blended (get (m_font this)) glyph
                            (Color.to_SDL_Color (get_color renderer)))) (fun surf =>
  texture_ctor renderer surf).

(** font_cache::add_glyph: the members of [glyph_data] are initialised in
    order, the texture before the metrics. *)
Definition add_glyph (renderer : Renderer) (glyph : unicode) (this : font_cache)
    : outcome font_cache :=
  if has this glyph || negb (is_glyph_provided (m_font this) glyph)
  then Returns this
  else
    and_then (create_glyph_texture this renderer glyph) (fun tex =>
    and_then (value (get_metrics (m_font this) glyph)) (fun mtr =>
    Returns (mk_font_cache (m_font this)
                           (emplace glyph (mk_glyph_data tex mtr) (m_glyphs this))
                           (m_strings this)))).

(** The loop of font_cache::add_range, [for (auto ch = begin; ch < end; ++ch)],
    started at [ch].  The counter bounds the iterations; [None] is a loop
    cut short by it. *)
Fixpoint add_range_loop (n : nat) (renderer : Renderer) (ch end_ : unicode)
    (this : font_cache) : option (outcome font_cache) :=
  if ch <? end_ then
    match n with
    | O => None
    | S n' =>
        match add_glyph renderer ch this with
        | Returns this' => add_range_loop n' renderer (u16 (ch + 1)) end_ this'
        | Throws e => Some (Throws e)
        | AssertionFailed => Some AssertionFailed
        end
    end
  else Some (Returns this).

(** There are 65536 code units, and the loop visits none twice. *)
Definition code_units : nat := Z.to_nat 65536.

(** font_cache::add_range *)
Definition add_range (renderer : Renderer) (begin end_ : unicode) (this : font_cache)
    : option (outcome font_cache) :=
  add_range_loop code_units renderer begin end_ this.

(** font_cache::add_basic_latin, add_latin1_supplement *)
Definition add_basic_latin (renderer : Renderer) := add_range renderer 32 127.
Definition add_latin1_supplement (renderer : Renderer) := add_range renderer 160 256.

(** What a cache that [c] grew into keeps of [c]: the font, the strings and
    every glyph entry; [only] bounds the glyphs that were added, all of them
    provided by the font. *)
Definition grown (only : unicode -> Prop) (c c' : font_cache) : Prop :=
  m_font c' = m_font c /\
  m_strings c' = m_strings c /\
  (forall g, m_glyphs c' !! g = m_glyphs c !! g \/
             (only g /\ m_glyphs c !! g = None /\ is_Some (m_glyphs c' !! g) /\
              is_glyph_provided (m_font c) g = true)).

(** font_cache::add_latin1: the first call, and the second when the first
    returns. *)
Definition add_latin1 (renderer : Renderer) (this : font_cache)
    : option (outcome font_cache) :=
  match add_basic_latin renderer this with
  | Some (Returns this') => add_latin1_supplement renderer this'
  | other => other
  end.

(** The code points [ch] with [begin <= ch < end], in increasing order. *)
Definition code_points (begin end_ : Z) : list Z :=
  map (fun i => begin + Z.of_nat i) (seq 0 (Z.to_nat (end_ - begin))).

(** One call of [add_glyph] after the other, one for each element of the
    list in the order of the list; an exception ends the sequence. *)
Fixpoint add_glyph_each (renderer : Renderer) (l : list unicode) (this : font_cache)
    : outcome font_cache :=
  match l with
  | [] => Returns this
  | ch :: rest => and_then (add_glyph renderer ch this) (add_glyph_each renderer rest)
  end.

End Cache.

Arguments mk_glyph_data {texture} cached metrics.
Arguments cached {texture} g.
Arguments metrics {texture} g.
Arguments mk_font_cache {texture} m_font m_glyphs m_strings.
Arguments m_font {texture} f.
Arguments m_glyphs {texture} f.
Arguments m_strings {texture} f.
Arguments font_cache_ctor {texture} f.
Arguments get_font {texture} this.
Arguments store {texture} id tex this.
Arguments store_rendered {texture Renderer} render id what renderer this.
Arguments has_stored {texture} this id.
Arguments get_stored {texture} this id.
Arguments has {texture} this glyph.
Arguments at_ {texture} this glyph.
Arguments create_glyph_texture {texture Renderer}
  get_color TTF_RenderGlyph_Blended texture_ctor this renderer glyph.
Arguments add_glyph {texture Renderer}
  get_color TTF_RenderGlyph_Blended texture_ctor renderer glyph this.
Arguments add_range_loop {texture Renderer}
  get_color TTF_RenderGlyph_Blended texture_ctor n renderer ch end_ this.
Arguments add_range {texture Renderer}
  get_color TTF_RenderGlyph_Blended texture_ctor renderer begin end_ this.
Arguments add_basic_latin {texture Renderer}
  get_color TTF_RenderGlyph_Blended texture_ctor renderer this.
Arguments add_latin1_supplement {texture Renderer}
  get_color TTF_RenderGlyph_Blended texture_ctor renderer this.
Arguments add_latin1 {texture Renderer}
  get_color TTF_RenderGlyph_Blended texture_ctor renderer this.
Arguments grown {texture} only c c'.

Arguments add_glyph_each {texture Renderer}
  get_color TTF_RenderGlyph_Blended texture_ctor renderer l this.

(** An instance to run the cache on: a font that provides the capital
    letters, and a renderer whose textures are numbered by the surface they
    come from. *)
Definition letters : font :=
  mk_font 1 (fun ch => (65 <=? ch) && (ch <=? 90))
            (fun ch => Some (mk_glyph_metrics 0 8 0 12 9)).

Definition numbered_glyph (f : Z) (ch : unicode) (c : Color.SDL_Color) : Z := 1000 + ch.

(** A native rendering that fails: it returns the null pointer. *)
Definition no_surface (f : Z) (ch : Z) (c : Color.SDL_Color) : Z := 0.

Definition numbered_texture (_ : unit) (s : surface) : outcome Z := Returns (m_surface s).

Definition numbered_render (_ : unit) (what : rendering) (f : font) : outcome Z :=
  match what with
  | blended_utf8 str => Returns (Z.of_nat (String.length str))
  | _ => Throws sdl_error
  end.

End FontCache.

(** ** surface.cpp *)

Module Surface.

(** [SDL_Surface*]: an address, [0] being [nullptr]. *)
Abbreviation pointer := Z.
Definition nullptr : pointer := 0.

(** *** Ownership: destroy, move, the move assignment and the destructor *)

(** The [surface] objects alive, the [m_surface] of each under the address
    of the object, and the pointers given to [SDL_FreeSurface], in the
    order of the calls. *)
Record memory : Type := mk_memory {
  objects : gmap Z pointer;
  freed : list pointer
}.

(** [SDL_FreeSurface(p)] *)
Definition SDL_FreeSurface (p : pointer) (mem : memory) : memory :=
  mk_memory (objects mem) (freed mem ++ [p]).

(** surface::destroy; [None] where the object is not alive. *)
Definition destroy (this : Z) (mem : memory) : option memory :=
  match objects mem !! this with
  | Some m_surface =>
      Some (if negb (m_surface =? nullptr) then SDL_FreeSurface m_surface mem else mem)
  | None => None
  end.

(** surface::move *)
Definition move (this other : Z) (mem : memory) : option memory :=
  match destroy this mem with
  | Some mem1 =>
      match objects mem1 !! other with
      | Some other_surface =>
          Some (mk_memory (<[other := nullptr]> (<[this := other_surface]> (objects mem1)))
                          (freed mem1))
      | None => None
      end
  | None => None
  end.

(** surface::operator=(surface&&) *)
Definition move_assign (this other : Z) (mem : memory) : option memory :=
  if negb (this =? other) then move this other mem else Some mem.

(** surface::~surface: [destroy], and the object is gone. *)
Definition surface_dtor (this : Z) (mem : memory) : option memory :=
  match destroy this mem with
  | Some mem1 => Some (mk_memory (delete this (objects mem1)) (freed mem1))
  | None => None
  end.

(** The calls a program makes on its surfaces. *)
Inductive operation : Type :=
| do_move_assign (this other : Z)
| do_dtor (this : Z).

Definition perform (o : operation) (mem : memory) : option memory :=
  match o with
  | do_move_assign this other => move_assign this other mem
  | do_dtor this => surface_dtor this mem
  end.

Fixpoint perform_all (ops : list operation) (mem : memory) : option memory :=
  match ops with
  | [] => Some mem
  | o :: rest =>
      match perform o mem with
      | Some mem1 => perform_all rest mem1
      | None => None
      end
  end.

(** A native surface is held when a live object points to it. *)
Definition held (mem : memory) (p : pointer) : Prop :=
  p <> nullptr /\ exists this, objects mem !! this = Some p.

(** Every native surface has one owner: no two objects hold the same
    surface, no object holds a surface that was freed, and no surface was
    freed twice. *)
Definition sole_owners (mem : memory) : Prop :=
  (forall this other p,
     objects mem !! this = Some p -> objects mem !! other = Some p ->
     p <> nullptr -> this = other) /\
  (forall p, held mem p -> ~ In p (freed mem)) /\
  List.NoDup (freed mem).

(** *** Pixels: in_bounds, lock, unlock and set_pixel *)

(** [int]: 32 bits in two's complement.  An operation whose result does
    not fit wraps around, as it does in the compiled code. *)
Definition int_max : Z := 2147483647.

Definition is_int (z : Z) : Prop := - 2147483648 <= z <= int_max.

Definition wrap (z : Z) : Z := (z + 2147483648) mod 4294967296 - 2147483648.

Definition int_add (a b : Z) : Z := wrap (a + b).
Definition int_mul (a b : Z) : Z := wrap (a * b).

(** point_i, with [x()] and [y()]. *)
Record point_i : Type := mk_point_i { x : Z; y : Z }.

Inductive sdl_call : Type := SDL_LockSurface | SDL_UnlockSurface.

(** What [set_pixel] reads and writes of the native surface: [pitch], the
    bytes of a row, and [pixels], seen as an array of [u32]; with the calls
    of the lock, in the order they are made. *)
Record SDL_Surface : Type := mk_SDL_Surface {
  pitch : Z;
  pixels : list Z;
  calls : list sdl_call
}.

(** [pixels[index] = value]; [None] for an index outside the array. *)
Definition write (index value : Z) (s : SDL_Surface) : option SDL_Surface :=
  if (0 <=? index) && (index <? Z.of_nat (length (pixels s))) then
    Some (mk_SDL_Surface (pitch s) (<[Z.to_nat index := value]> (pixels s)) (calls s))
  else None.

Definition call (c : sdl_call) (s : SDL_Surface) : SDL_Surface :=
  mk_SDL_Surface (pitch s) (pixels s) (calls s ++ [c]).

Section Pixels.

(** What the native side answers:
    - [width], [height]: surface::width() and surface::height(), whose
      definitions are in surface.hpp;
    - [must_lock]: [SDL_MUSTLOCK(m_surface)];
    - [lock_result]: what [SDL_LockSurface] returns;
    - [SDL_MapRGBA]: the pixel value of a color in the format of the
      surface. *)
Variables width height : Z.
Variable must_lock : bool.
Variable lock_result : Z.
Variable SDL_MapRGBA : Z -> Z -> Z -> Z -> Z.

(** surface::in_bounds *)
Definition in_bounds (point : point_i) : bool :=
  negb ((x point <? 0) || (y point <? 0) || (x point >=? width) || (y point >=? height)).

(** surface::lock *)
Definition lock (s : SDL_Surface) : bool * SDL_Surface :=
  if must_lock then
    let result := lock_result in
    (result =? 0, call SDL_LockSurface s)
  else (true, s).

(** surface::unlock *)
Definition unlock (s : SDL_Surface) : SDL_Surface :=
  if must_lock then call SDL_UnlockSurface s else s.

(** [nPixels] and [index] of [set_pixel], both of type [int]; the quotient
    of an [int] by 4 is an [int]. *)
Definition nPixels (s : SDL_Surface) : Z := int_mul (pitch s ÷ 4) height.

Definition pixel_index (pixel : point_i) : Z :=
  int_add (int_mul (y pixel) width) (x pixel).

(** surface::set_pixel *)
Definition set_pixel (pixel : point_i) (c : Color.color) (s : SDL_Surface)
    : option SDL_Surface :=
  if negb (in_bounds pixel) then Some s
  else
    let '(success, s1) := lock s in
    if negb success then Some s1
    else
      let nPixels := nPixels s1 in
      let index := pixel_index pixel in
      match
        (if (index >=? 0) && (index <? nPixels) then
           let value := SDL_MapRGBA (Color.red c) (Color.green c) (Color.blue c)
                                    (Color.alpha c) in
           write index value s1
         else Some s1)
      with
      | Some s2 => Some (unlock s2)
      | None => None
      end.

End Pixels.

(** Two surface objects, at the addresses 1 and 2, each with a native
    surface of its own; a surface of two rows of two pixels of four bytes,
    and one of one row of four pixels of one byte; and a pixel format of
    eight bits a component. *)
Definition two_surfaces : memory := mk_memory (<[1 := 10]> (<[2 := 20]> empty)) [].

Definition square : SDL_Surface := mk_SDL_Surface 8 [0; 0; 0; 0] [].

Definition narrow : SDL_Surface := mk_SDL_Surface 4 [0] [].

Definition rgba8888 (r g b a : Z) : Z := ((r * 256 + g) * 256 + b) * 256 + a.

End Surface.

(** ** semaphore.hpp *)

Module Semaphore.

(** Modelled from the spec: lock_status, declared outside the sources; the
    tests of [acquire(ms)] and [try_acquire] use [success] and [timed_out]. *)
Inductive lock_status : Type := success | timed_out | error.

(** Modelled from the spec: semaphore.hpp is not among the sources, only its
    unit tests are.  The spec describes the class as a direct proxy of the
    native semaphore whose tokens decrement on acquire and increment on
    release; the state of the native semaphore is its number of tokens. *)
Record semaphore : Type := mk_semaphore { count : Z }.

(** Modelled from the spec: semaphore::semaphore(tokens). *)
Definition semaphore_ctor (tokens : Z) : semaphore := mk_semaphore tokens.

(** Modelled from the spec: semaphore::tokens. *)
Definition tokens (this : semaphore) : Z := count this.

(** Modelled from the spec: semaphore::try_acquire takes a token when there
    is one and reports [timed_out] otherwise (TEST(Semaphore, TryAcquire)). *)
Definition try_acquire (this : semaphore) : lock_status * semaphore :=
  if 0 <? count this
  then (success, mk_semaphore (count this - 1))
  else (timed_out, this).

(** Modelled from the spec: semaphore::acquire waits for a token; with none
    left and nobody to release one the call does not return ([None]). *)
Definition acquire (this : semaphore) : option (bool * semaphore) :=
  if 0 <? count this
  then Some (true, mk_semaphore (count this - 1))
  else None.

(** Modelled from the spec: semaphore::release returns a token. *)
Definition release (this : semaphore) : bool * semaphore :=
  (true, mk_semaphore (count this + 1)).

End Semaphore.

(** ** rect.hpp *)

Module Rect.

Open Scope Q_scope.

(** *** Arithmetic on [float]

    Modelled from the spec: rect.hpp is not among the sources, only its
    unit tests are, and they build cen::frect, the rectangle of [float]
    coordinates.  A [float] is modelled by the rational it stands for; a
    sum or a difference of two floats is the exact one followed by the
    rounding [rnd] of the format, taken of the value in lowest terms, so
    that floats that compare equal give the same result.  Comparisons,
    the minimum and the maximum are exact. *)

(** The exponent of the last place of a binary32 number: 23 places below
    the leading one, and no lower than that of the subnormal numbers. *)
Definition exponent32 (x : Q) : Z := Z.max (Color.ilog2 (Qabs x) - 23) (-149).

(** Rounding to the nearest binary32 number, ties to even. *)
Definition binary32 (x : Q) : Q :=
  if Qeq_bool x 0 then 0
  else Qred (inject_Z (Color.nearest_even (x / 2 ^ exponent32 x)) * 2 ^ exponent32 x).

(** Modelled from the spec: the points and areas a rectangle is built from
    in the tests, cen::fpoint and cen::farea. *)
Record point : Type := mk_point { px : Q; py : Q }.
Record area : Type := mk_area { width_ : Q; height_ : Q }.

(** Modelled from the spec: a rectangle is a position and a size (spec,
    data model); the members below are the ones the tests call. *)
Record rect : Type := mk_rect { position : point; size : area }.

(** Modelled from the spec: the four getters of a rectangle. *)
Definition x (r : rect) : Q := px (position r).
Definition y (r : rect) : Q := py (position r).
Definition width (r : rect) : Q := width_ (size r).
Definition height (r : rect) : Q := height_ (size r).

(** Modelled from the spec: the default rectangle, after
    TEST(Rect, DefaultConstructor). *)
Definition rect_default : rect := mk_rect (mk_point 0 0) (mk_area 0 0).

(** Modelled from the spec: operator== on rectangles, which the tests use
    through EXPECT_EQ: the four coordinates compare equal. *)
Definition eq_rect (lhs rhs : rect) : bool :=
  Qeq_bool (x lhs) (x rhs) && Qeq_bool (y lhs) (y rhs) &&
  Qeq_bool (width lhs) (width rhs) && Qeq_bool (height lhs) (height rhs).

(** Modelled from the spec: has_area, after TEST(Rect, HasArea): a
    rectangle has area when its width and its height are positive. *)
Definition has_area (r : rect) : bool :=
  Color.flt 0 (width r) && Color.flt 0 (height r).

Section Rounded.

Variable rnd : Q -> Q.

Definition fadd (a b : Q) : Q := rnd (Qred (a + b)).
Definition fsub (a b : Q) : Q := rnd (Qred (a - b)).

(** Modelled from the spec: max_x and max_y, after TEST(Rect, MaxX) and
    TEST(Rect, MaxY): the float sums [x + width] and [y + height]. *)
Definition max_x (r : rect) : Q := fadd (x r) (width r).
Definition max_y (r : rect) : Q := fadd (y r) (height r).


(** Modelled from the spec: get_union returns the bounding box of the two
    rectangles (spec, testable properties): it starts at the smaller [x]
    and [y] and reaches the larger [max_x] and [max_y].
    TEST(Rect, GetUnion) fixes what it returns for the default rectangle:
    the other rectangle. *)
Definition get_union (fst snd : rect) : rect :=
  if eq_rect fst rect_default then snd
  else if eq_rect snd rect_default then fst
  else
    let x_ := Qmin (x fst) (x snd) in
    let y_ := Qmin (y fst) (y snd) in
    let maxX := Qmax (max_x fst) (max_x snd) in
    let maxY := Qmax (max_y fst) (max_y snd) in
    mk_rect (mk_point x_ y_) (mk_area (fsub maxX x_) (fsub maxY y_)).



End Rounded.

(** The rectangles of TEST(Rect, GetUnion). *)
Definition fst_ : rect := mk_rect (mk_point 10 10) (mk_area 50 50).
Definition snd_ : rect := mk_rect (mk_point 40 40) (mk_area 50 50).

End Rect.

(** * Theorems *)

(** ** The thread class *)

Module ThreadFacts.

Import Thread.

Section Native.

Variable created : Z -> string -> pointer -> pointer.
Variable exit_status : pointer -> Z.

Lemma joinable_spec (this : thread) :
  joinable this = true <-> m_joined this = false /\ m_detached this = false.
Proof.
  unfold joinable. destruct (m_joined this), (m_detached this); simpl; intuition congruence.
Qed.

(** A join that is not skipped makes one call and sets [m_joined]. *)
Lemma join_joinable (this : thread) (tr : trace) :
  joinable this = true ->
  join exit_status this tr =
    (Returns (exit_status (m_thread this), mk_thread (m_thread this) true false),
     tr ++ [SDL_WaitThread (m_thread this)]).
Proof.
  intros H. apply joinable_spec in H as [Hj Hd].
  unfold join, bind, call, assert, ret. rewrite Hj, Hd. reflexivity.
Qed.

(** A join of a thread that was joined or detached does nothing. *)
Lemma join_skipped (this : thread) (tr : trace) :
  m_joined this || m_detached this = true ->
  join exit_status this tr = (Returns (0, this), tr).
Proof. intros H. unfold join. rewrite H. reflexivity. Qed.

Lemma detach_joinable (this : thread) (tr : trace) :
  joinable this = true ->
  detach this tr =
    (Returns (mk_thread (m_thread this) false true),
     tr ++ [SDL_DetachThread (m_thread this)]).
Proof.
  intros H. apply joinable_spec in H as [Hj Hd].
  unfold detach, bind, call, assert, ret. rewrite Hj, Hd. reflexivity.
Qed.

Lemma detach_skipped (this : thread) (tr : trace) :
  m_joined this || m_detached this = true ->
  detach this tr = (Returns this, tr).
Proof. intros H. unfold detach. rewrite H. reflexivity. Qed.

Lemma joinable_negb (this : thread) :
  joinable this = negb (m_joined this || m_detached this).
Proof. unfold joinable. now rewrite negb_orb. Qed.

(** The constructor, by cases on the handle the native call returns. *)
Lemma thread_ctor_eq (task : Z) (name : string) (data : pointer) (tr : trace) :
  thread_ctor created task name data tr =
    (if created task name data =? nullptr
     then Throws sdl_error
     else Returns (mk_thread (created task name data) false false),
     tr ++ [SDL_CreateThread task name data]).
Proof.
  unfold thread_ctor, bind, call, throw, ret. simpl.
  destruct (created task name data =? nullptr); reflexivity.
Qed.

(** The flags of a reachable thread are never both set. *)
Lemma reachable_flags (this : thread) :
  reachable created exit_status this -> m_joined this && m_detached this = false.
Proof.
  induction 1 as [task name data tr this tr' Hc
                 | this tr status this' tr' _ IH Hj
                 | this tr this' tr' _ IH Hd].
  - rewrite thread_ctor_eq in Hc.
    destruct (created task name data =? nullptr); inversion Hc; reflexivity.
  - destruct (joinable this) eqn:E.
    + rewrite (join_joinable _ _ E) in Hj. inversion Hj; reflexivity.
    + rewrite joinable_negb in E. apply negb_false_iff in E.
      rewrite (join_skipped _ _ E) in Hj. inversion Hj; subst. exact IH.
  - destruct (joinable this) eqn:E.
    + rewrite (detach_joinable _ _ E) in Hd. inversion Hd; reflexivity.
    + rewrite joinable_negb in E. apply negb_false_iff in E.
      rewrite (detach_skipped _ _ E) in Hd. inversion Hd; subst. exact IH.
Qed.

(** The assertions of [join] and [detach] hold whatever the state. *)
Lemma join_detach_assertions (this : thread) (tr : trace) :
  fst (join exit_status this tr) <> AssertionFailed /\
  fst (detach this tr) <> AssertionFailed.
Proof.
  destruct (joinable this) eqn:E.
  - rewrite (join_joinable _ _ E), (detach_joinable _ _ E). simpl. split; discriminate.
  - rewrite joinable_negb in E. apply negb_false_iff in E.
    rewrite (join_skipped _ _ E), (detach_skipped _ _ E). simpl. split; discriminate.
Qed.

(** C3. The destructor joins the thread exactly when it is joinable, that
    is when it was neither joined nor detached before: then it makes the
    one call [SDL_WaitThread] on the handle, and when the thread was joined
    or detached before it makes no call at all. *)
Theorem destructor_joins_iff_joinable (this : thread) (tr : trace) :
  (joinable this = true <-> m_joined this = false /\ m_detached this = false) /\
  snd (thread_dtor exit_status this tr) =
    tr ++ (if joinable this then [SDL_WaitThread (m_thread this)] else []) /\
  (joins (snd (thread_dtor exit_status this tr)) =
     joins tr ++ [SDL_WaitThread (m_thread this)] <-> joinable this = true) /\
  (m_joined this || m_detached this = true ->
   thread_dtor exit_status this tr = (Returns this, tr)).
Proof.
  assert (Hsnd : snd (thread_dtor exit_status this tr) =
                 tr ++ (if joinable this then [SDL_WaitThread (m_thread this)] else [])).
  { unfold thread_dtor. destruct (joinable this) eqn:E.
    - unfold bind. rewrite (join_joinable _ _ E). reflexivity.
    - simpl. now rewrite app_nil_r. }
  split; [apply joinable_spec|]. split; [exact Hsnd|]. split.
  - rewrite Hsnd. unfold joins. rewrite List.filter_app.
    destruct (joinable this); simpl.
    + tauto.
    + split; [|discriminate]. intros H.
      apply (f_equal (@length sdl_call)) in H.
      rewrite !List.length_app in H. simpl in H. lia.
  - intros H. unfold thread_dtor. rewrite joinable_negb, H. reflexivity.
Qed.

(** C4. The constructor throws [sdl_error] if and only if the native
    creation call returns the null pointer; when the call returns a handle
    the constructor returns the object that stores it, with both flags
    unset. *)
Theorem constructor_throws_iff_null (task : Z) (name : string) (data : pointer)
    (tr : trace) :
  (fst (thread_ctor created task name data tr) = Throws sdl_error <->
   created task name data = nullptr) /\
  ((exists e, fst (thread_ctor created task name data tr) = Throws e) <->
   created task name data = nullptr) /\
  (created task name data <> nullptr ->
   thread_ctor created task name data tr =
     (Returns (mk_thread (created task name data) false false),
      tr ++ [SDL_CreateThread task name data])).
Proof.
  rewrite thread_ctor_eq. simpl.
  destruct (Z.eqb_spec (created task name data) nullptr) as [E|E].
  - repeat split; try tauto. eauto.
  - repeat split; try tauto; try discriminate.
    intros [e He]. discriminate.
Qed.

(** C9. In every state a thread object reaches by construction, [join] and
    [detach], the flags [m_joined] and [m_detached] are not both set; and
    once the thread is joined or detached, [join] and [detach] leave the
    object and the trace of native calls as they are, [join] returning 0. *)
Theorem flags_exclusive_and_idempotent (this : thread) :
  reachable created exit_status this ->
  m_joined this && m_detached this = false /\
  forall tr,
    m_joined this || m_detached this = true ->
    join exit_status this tr = (Returns (0, this), tr) /\
    detach this tr = (Returns this, tr).
Proof.
  intros H. split; [exact (reachable_flags _ H)|].
  intros tr Hd. split; [apply join_skipped | apply detach_skipped]; exact Hd.
Qed.

(** A computation that returns hands its value and its trace on. *)
Lemma bind_returns {A B} (m : M A) (k : A -> M B) (tr tr' : trace) (a : A) :
  m tr = (Returns a, tr') -> bind m k tr = k a tr'.
Proof. intros H. unfold bind. now rewrite H. Qed.

(** Once a flag is set, no call changes the object or reaches the native
    library. *)
Lemma perform_all_skipped (ops : list operation) (this : thread) (tr : trace) :
  m_joined this || m_detached this = true ->
  perform_all exit_status ops this tr = (Returns this, tr).
Proof.
  intros Ht. induction ops as [|o ops IH]; [reflexivity|].
  simpl. erewrite bind_returns; [exact IH|].
  destruct o; simpl.
  - erewrite bind_returns by (apply join_skipped, Ht). reflexivity.
  - apply detach_skipped, Ht.
Qed.

(** Whatever is called on a thread object that is neither joined nor
    detached, only the first call reaches the native library: a join waits
    for the thread, a detach detaches it, and the object remembers which. *)
Lemma perform_all_first (ops : list operation) (h : pointer) (tr : trace) :
  perform_all exit_status ops (mk_thread h false false) tr =
    match ops with
    | [] => (Returns (mk_thread h false false), tr)
    | do_join :: _ => (Returns (mk_thread h true false), tr ++ [SDL_WaitThread h])
    | do_detach :: _ => (Returns (mk_thread h false true), tr ++ [SDL_DetachThread h])
    end.
Proof.
  destruct ops as [|[|] ops]; [reflexivity| |]; simpl.
  - erewrite bind_returns.
    + apply perform_all_skipped. reflexivity.
    + erewrite bind_returns by (apply join_joinable; reflexivity). reflexivity.
  - erewrite bind_returns.
    + apply perform_all_skipped. reflexivity.
    + apply detach_joinable. reflexivity.
Qed.

(** X1. A thread object that was created is released to the native library
    exactly once in its life, whatever is called on it and in whatever
    order: by one [SDL_DetachThread] when the first call is [detach], and
    by one [SDL_WaitThread] otherwise (the first [join], or the destructor
    when nothing was called).  No other native call is made, so the handle
    is never waited for twice and never waited for after a detach. *)
Theorem thread_released_exactly_once (task : Z) (name : string) (data : pointer)
    (ops : list operation) (tr : trace) :
  created task name data <> nullptr ->
  lifetime created exit_status task name data ops tr =
    match ops with
    | do_detach :: _ =>
        (Returns (mk_thread (created task name data) false true),
         tr ++ [SDL_CreateThread task name data;
                SDL_DetachThread (created task name data)])
    | _ =>
        (Returns (mk_thread (created task name data) true false),
         tr ++ [SDL_CreateThread task name data;
                SDL_WaitThread (created task name data)])
    end.
Proof.
  intros Hh. unfold lifetime.
  erewrite bind_returns.
  2: { rewrite thread_ctor_eq.
       destruct (Z.eqb_spec (created task name data) nullptr) as [E|_];
         [contradiction | reflexivity]. }
  unfold bind at 1. rewrite perform_all_first.
  destruct ops as [|[|] ops]; unfold thread_dtor; simpl.
  - erewrite bind_returns by (apply join_joinable; reflexivity).
    simpl. unfold ret. now rewrite <- app_assoc.
  - unfold ret. now rewrite <- app_assoc.
  - unfold ret. now rewrite <- app_assoc.
Qed.

(** X2. After any calls on a freshly constructed thread object, the handle
    is the one the object was created with, [was_joined] holds exactly
    when the first call was [join], [was_detached] exactly when it was
    [detach], and the thread is joinable exactly when nothing was called. *)
Theorem first_operation_decides (ops : list operation) (h : pointer) (tr : trace) :
  exists this,
    fst (perform_all exit_status ops (mk_thread h false false) tr) = Returns this /\
    m_thread this = h /\
    (was_joined this = true <-> exists rest, ops = do_join :: rest) /\
    (was_detached this = true <-> exists rest, ops = do_detach :: rest) /\
    (joinable this = true <-> ops = []).
Proof.
  rewrite perform_all_first.
  destruct ops as [|[|] ops]; eexists; (split; [reflexivity|]); simpl;
    unfold was_joined, was_detached, joinable; simpl;
    repeat split; try discriminate; try reflexivity; eauto;
    try (intros [rest Hr]; discriminate).
Qed.

(** The constructor of a thread that cannot be created throws, and the
    life of the object ends there. *)
Lemma lifetime_of_failed_creation (task : Z) (name : string) (data : pointer)
    (ops : list operation) (tr : trace) :
  created task name data = nullptr ->
  lifetime created exit_status task name data ops tr =
    (Throws sdl_error, tr ++ [SDL_CreateThread task name data]).
Proof.
  intros Hh. unfold lifetime, bind. rewrite thread_ctor_eq, Hh. reflexivity.
Qed.

End Native.

(** A thread with handle 7 that was created and then joined. *)
Lemma flags_exclusive_and_idempotent_witness :
  reachable (fun _ _ _ => 7) (fun _ => 3) (mk_thread 7 true false) /\
  (true && false = false /\
   forall tr,
     true || false = true ->
     join (fun _ => 3) (mk_thread 7 true false) tr
       = (Returns (0, mk_thread 7 true false), tr) /\
     detach (mk_thread 7 true false) tr = (Returns (mk_thread 7 true false), tr)).
Proof.
  assert (R : reachable (fun _ _ _ => 7) (fun _ => 3) (mk_thread 7 true false)).
  { eapply (reach_join _ _ (mk_thread 7 false false) [] 3).
    - eapply (reach_ctor _ _ 0 "thread"%string 0 []). reflexivity.
    - reflexivity. }
  split; [exact R|].
  exact (flags_exclusive_and_idempotent (fun _ _ _ => 7) (fun _ => 3) _ R).
Defined.

(** A thread with handle 7 that is detached, joined and destroyed. *)
Lemma thread_released_exactly_once_witness :
  7 <> nullptr /\
  lifetime (fun _ _ _ => 7) (fun _ => 3) 0 "thread" 0 [do_detach; do_join] [] =
    (Returns (mk_thread 7 false true),
     [SDL_CreateThread 0 "thread" 0; SDL_DetachThread 7]).
Proof.
  assert (H : 7 <> nullptr) by discriminate.
  split; [exact H|].
  exact (thread_released_exactly_once (fun _ _ _ => 7) (fun _ => 3) 0 "thread" 0
           [do_detach; do_join] [] H).
Defined.

End ThreadFacts.

(** ** The color class *)

Module ColorFacts.

Import Color.

Open Scope Q_scope.

(** *** Rounding *)

Lemma eps_pos : 0 < eps.
Proof. reflexivity. Qed.

Lemma eta_pos : 0 < eta.
Proof. reflexivity. Qed.

Lemma eps_small : eps <= 1 # 1048576.
Proof. unfold eps, Qle. vm_compute. discriminate. Qed.

Lemma eta_small : eta <= 1 # 1048576.
Proof. unfold eta, Qle. vm_compute. discriminate. Qed.

(** Arithmetic without rounding error is a rounding. *)
Lemma rounding_exact : rounding exact.
Proof.
  unfold rounding, exact. split; [|split].
  - auto.
  - intros. reflexivity.
  - intros x. pose proof (Qabs_nonneg x).
    pose proof eps_pos. pose proof eta_pos.
    assert (0 <= Qabs x * eps) by (apply Qmult_le_0_compat; lra).
    apply Qabs_Qle_condition. split; lra.
Qed.

Lemma inject_Z_succ (n : Z) : inject_Z (n + 1) == inject_Z n + 1.
Proof. rewrite inject_Z_plus. reflexivity. Qed.

Lemma inject_Z_pred (n : Z) : inject_Z (n - 1) == inject_Z n - 1.
Proof. unfold Z.sub. rewrite inject_Z_plus. reflexivity. Qed.

(** An integer strictly between [m - 1] and [m + 1] is [m]. *)
Lemma between_int (k m : Z) :
  inject_Z m - 1 < inject_Z k -> inject_Z k < inject_Z m + 1 -> k = m.
Proof.
  rewrite <- inject_Z_pred, <- inject_Z_succ, <- !Zlt_Qlt. lia.
Qed.

(** [std::round] of a number less than one half away from an integer. *)
Lemma round_near (x : Q) (n : Z) :
  inject_Z n - (1 # 2) < x -> x < inject_Z n + (1 # 2) -> round x = inject_Z n.
Proof.
  intros Hlo Hhi. unfold round. f_equal.
  destruct (Qle_bool 0 x) eqn:E; apply between_int.
  - pose proof (Qlt_floor (x + (1 # 2))) as H2.
    rewrite inject_Z_succ in H2. lra.
  - pose proof (Qfloor_le (x + (1 # 2))) as H1. lra.
  - pose proof (Qle_ceiling (x - (1 # 2))) as H1. lra.
  - pose proof (Qceiling_lt (x - (1 # 2))) as H2.
    rewrite inject_Z_pred in H2. lra.
Qed.

Lemma trunc_inject_Z (n : Z) : trunc (inject_Z n) = n.
Proof.
  unfold trunc. destruct (Qle_bool 0 (inject_Z n)); [apply Qfloor_Z | apply Qceiling_Z].
Qed.

Lemma static_cast_round (x : Q) (n : Z) :
  is_u8 n -> inject_Z n - (1 # 2) < x -> x < inject_Z n + (1 # 2) ->
  static_cast_u8 (round x) = n.
Proof.
  intros Hn Hlo Hhi. rewrite (round_near x n Hlo Hhi).
  unfold static_cast_u8. rewrite trunc_inject_Z. apply Z.mod_small. exact Hn.
Qed.

Lemma static_cast_u8_is_u8 (x : Q) : is_u8 (static_cast_u8 x).
Proof. unfold is_u8, static_cast_u8. apply Z.mod_pos_bound. reflexivity. Qed.

Lemma u8_bounds (c : Z) : is_u8 c -> 0 <= inject_Z c <= 255.
Proof.
  intros [H0 H1]. split.
  - change 0 with (inject_Z 0). rewrite <- Zle_Qle. exact H0.
  - change 255 with (inject_Z 255). rewrite <- Zle_Qle. lia.
Qed.

Lemma fle_true (x y : Q) : x <= y -> fle x y = true.
Proof. apply Qle_bool_iff. Qed.

Lemma fle_false (x y : Q) : y < x -> fle x y = false.
Proof.
  intros H. unfold fle. destruct (Qle_bool x y) eqn:E; [|reflexivity].
  apply Qle_bool_iff in E. lra.
Qed.

Lemma flt_true (x y : Q) : x < y -> flt x y = true.
Proof. intros H. unfold flt. change (Qle_bool y x) with (fle y x). now rewrite fle_false. Qed.

Lemma flt_false (x y : Q) : y <= x -> flt x y = false.
Proof. intros H. unfold flt. change (Qle_bool y x) with (fle y x). now rewrite fle_true. Qed.

(** Settles every comparison of the goal that the context decides. *)
Ltac compare :=
  repeat match goal with
  | |- context [fle ?x ?y] =>
      first [ rewrite (fle_true x y) by lra | rewrite (fle_false x y) by lra ]
  | |- context [flt ?x ?y] =>
      first [ rewrite (flt_true x y) by lra | rewrite (flt_false x y) by lra ]
  end.

(** *** The rounding of binary64

    Powers of two. *)
Lemma pow2_pos (e : Z) : 0 < 2 ^ e.
Proof. apply Qpower_0_lt. reflexivity. Qed.

Lemma pow2_plus (a b : Z) : 2 ^ (a + b) == 2 ^ a * 2 ^ b.
Proof. apply Qpower_plus. discriminate. Qed.

Lemma pow2_le (a b : Z) : (a <= b)%Z -> 2 ^ a <= 2 ^ b.
Proof. intros H. apply Qpower_le_compat_l; [exact H | discriminate]. Qed.

Lemma pow2_lt_inv (a b : Z) : 2 ^ a < 2 ^ b -> (a < b)%Z.
Proof. intros H. apply (Qpower_lt_compat_l_inv 2); [exact H | reflexivity]. Qed.

Lemma pow2_Z (e : Z) : (0 <= e)%Z -> 2 ^ e == inject_Z (2 ^ e).
Proof. intros H. rewrite Zpower_Qpower by exact H. reflexivity. Qed.

Lemma pow2_succ (e : Z) : 2 ^ (e + 1) == 2 * 2 ^ e.
Proof. rewrite pow2_plus. change (2 ^ 1) with 2. ring. Qed.

(** [ilog2 x] is the exponent of the binade of [x]. *)
Lemma ilog2_spec (x : Q) : 0 < x -> 2 ^ ilog2 x <= x < 2 ^ (ilog2 x + 1).
Proof.
  intros Hx. destruct x as [n d]. unfold ilog2. simpl Qnum. simpl Qden.
  assert (Hn : (0 < n)%Z).
  { unfold Qlt in Hx. simpl in Hx. lia. }
  set (a := Z.log2 n). set (b := Z.log2 (Zpos d)).
  pose proof (Z.log2_spec n Hn) as [Ha1 Ha2]. fold a in Ha1, Ha2.
  pose proof (Z.log2_spec (Zpos d) ltac:(lia)) as [Hb1 Hb2]. fold b in Hb1, Hb2.
  pose proof (Z.log2_nonneg n) as Ha0. fold a in Ha0.
  pose proof (Z.log2_nonneg (Zpos d)) as Hb0. fold b in Hb0.
  (* the bounds on n and d, in Q *)
  assert (Qa1 : 2 ^ a <= inject_Z n).
  { rewrite pow2_Z by lia. rewrite <- Zle_Qle. exact Ha1. }
  assert (Qa2 : inject_Z n < 2 ^ (a + 1)).
  { rewrite pow2_Z by lia. rewrite <- Zlt_Qlt. replace (a + 1)%Z with (Z.succ a) by lia. exact Ha2. }
  assert (Qb1 : 2 ^ b <= inject_Z (Zpos d)).
  { rewrite pow2_Z by lia. rewrite <- Zle_Qle. exact Hb1. }
  assert (Qb2 : inject_Z (Zpos d) < 2 ^ (b + 1)).
  { rewrite pow2_Z by lia. rewrite <- Zlt_Qlt. replace (b + 1)%Z with (Z.succ b) by lia. exact Hb2. }
  assert (Hd : 0 < inject_Z (Zpos d)) by reflexivity.
  assert (Ex : (n # d) * inject_Z (Zpos d) == inject_Z n).
  { rewrite (Qmake_Qdiv n d). field. intros E. rewrite E in Hd. discriminate. }
  set (k := (a - b)%Z).
  assert (Ea : 2 ^ a == 2 ^ k * 2 ^ b).
  { rewrite <- pow2_plus. unfold k. replace (a - b + b)%Z with a by lia. reflexivity. }
  pose proof (pow2_pos k) as Hk. pose proof (pow2_pos b) as Hpb.
  pose proof (pow2_succ a) as Sa. pose proof (pow2_succ b) as Sb.
  pose proof (pow2_succ k) as Sk.
  destruct (Qle_bool (2 ^ k) (n # d)) eqn:E.
  - apply Qle_bool_iff in E. split; [exact E|].
    apply (Qmult_lt_r _ _ (inject_Z (Zpos d)) Hd). rewrite Ex.
    set (X := n # d) in *. set (D := inject_Z (Zpos d)) in *. set (N := inject_Z n) in *.
    set (pk := 2 ^ k) in *. set (pb := 2 ^ b) in *. set (pa := 2 ^ a) in *.
    set (pk1 := 2 ^ (k + 1)) in *. set (pa1 := 2 ^ (a + 1)) in *.
    nra.
  - assert (E' : (n # d) < 2 ^ k).
    { destruct (Qlt_le_dec (n # d) (2 ^ k)) as [H|H]; [exact H|].
      apply Qle_bool_iff in H. congruence. }
    replace (k - 1 + 1)%Z with k by lia. split; [|exact E'].
    assert (Sk' : 2 ^ k == 2 * 2 ^ (k - 1)).
    { rewrite <- pow2_succ. replace (k - 1 + 1)%Z with k by lia. reflexivity. }
    pose proof (pow2_pos (k - 1)) as Hk1.
    apply (Qmult_le_r _ _ (inject_Z (Zpos d)) Hd). rewrite Ex.
    set (X := n # d) in *. set (D := inject_Z (Zpos d)) in *. set (N := inject_Z n) in *.
    set (pk := 2 ^ k) in *. set (pb := 2 ^ b) in *. set (pa := 2 ^ a) in *.
    set (pk1 := 2 ^ (k - 1)) in *. set (pb1 := 2 ^ (b + 1)) in *.
    nra.
Qed.

(** Rounding to the nearest integer, ties to even: its error, its fixed
    points, its monotony and its symmetry. *)
Lemma floor_unique (x : Q) (m : Z) :
  inject_Z m <= x -> x < inject_Z m + 1 -> Qfloor x = m.
Proof.
  intros H1 H2. apply between_int.
  - pose proof (Qlt_floor x) as H. rewrite inject_Z_succ in H. lra.
  - pose proof (Qfloor_le x). lra.
Qed.

Lemma nearest_even_cases (y : Q) :
  inject_Z (Qfloor y) <= y < inject_Z (Qfloor y) + 1 /\
  ((y - inject_Z (Qfloor y) < 1 # 2 /\ nearest_even y = Qfloor y) \/
   ((1 # 2) < y - inject_Z (Qfloor y) /\ nearest_even y = (Qfloor y + 1)%Z) \/
   (y - inject_Z (Qfloor y) == 1 # 2 /\
    nearest_even y = if Z.even (Qfloor y) then Qfloor y else (Qfloor y + 1)%Z)).
Proof.
  pose proof (Qfloor_le y) as H1. pose proof (Qlt_floor y) as H2.
  rewrite inject_Z_succ in H2. split; [split; assumption|].
  unfold nearest_even.
  destruct (Qlt_le_dec (y - inject_Z (Qfloor y)) (1 # 2)) as [Hd|Hd].
  - left. rewrite flt_true by exact Hd. split; [exact Hd | reflexivity].
  - rewrite flt_false by exact Hd.
    destruct (Qlt_le_dec (1 # 2) (y - inject_Z (Qfloor y))) as [Hd'|Hd'].
    + right. left. rewrite flt_true by exact Hd'. split; [exact Hd' | reflexivity].
    + right. right. rewrite flt_false by exact Hd'. split; [lra | reflexivity].
Qed.

Lemma nearest_even_error (y : Q) :
  y - (1 # 2) <= inject_Z (nearest_even y) <= y + (1 # 2).
Proof.
  destruct (nearest_even_cases y) as [[H1 H2] [[Hd ->] | [[Hd ->] | [Hd ->]]]].
  - lra.
  - rewrite inject_Z_succ. lra.
  - destruct (Z.even (Qfloor y)); [|rewrite inject_Z_succ]; lra.
Qed.

Lemma nearest_even_Z (m : Z) : nearest_even (inject_Z m) = m.
Proof.
  unfold nearest_even. rewrite Qfloor_Z. rewrite flt_true by lra. reflexivity.
Qed.

Lemma nearest_even_mono (y1 y2 : Q) : y1 <= y2 -> (nearest_even y1 <= nearest_even y2)%Z.
Proof.
  intros H. pose proof (Qfloor_resp_le _ _ H) as Hf.
  destruct (nearest_even_cases y1) as [[A1 A2] C1].
  destruct (nearest_even_cases y2) as [[B1 B2] C2].
  destruct (Z.eq_dec (Qfloor y1) (Qfloor y2)) as [E|E].
  - rewrite E in *.
    destruct C1 as [[Hd1 ->] | [[Hd1 ->] | [Hd1 ->]]];
    destruct C2 as [[Hd2 ->] | [[Hd2 ->] | [Hd2 ->]]];
    try lia; try (exfalso; lra); destruct (Z.even (Qfloor y2)); try lia; exfalso; lra.
  - assert (nearest_even y1 <= Qfloor y1 + 1)%Z.
    { destruct C1 as [[_ ->] | [[_ ->] | [_ ->]]]; [lia | lia |].
      destruct (Z.even (Qfloor y1)); lia. }
    assert (Qfloor y2 <= nearest_even y2)%Z.
    { destruct C2 as [[_ ->] | [[_ ->] | [_ ->]]]; [lia | lia |].
      destruct (Z.even (Qfloor y2)); lia. }
    lia.
Qed.

Lemma nearest_even_compat (y1 y2 : Q) : y1 == y2 -> nearest_even y1 = nearest_even y2.
Proof.
  intros E. apply Z.le_antisymm; apply nearest_even_mono; rewrite E; apply Qle_refl.
Qed.

Lemma nearest_even_opp (y : Q) : nearest_even (- y) = (- nearest_even y)%Z.
Proof.
  destruct (nearest_even_cases y) as [[A1 A2] C].
  destruct (Qeq_dec y (inject_Z (Qfloor y))) as [E|E].
  - rewrite (nearest_even_compat y _ E).
    rewrite (nearest_even_compat (- y) (inject_Z (- Qfloor y))).
    + now rewrite !nearest_even_Z.
    + rewrite inject_Z_opp. now rewrite <- E.
  - assert (A1' : inject_Z (Qfloor y) < y).
    { destruct (Qlt_le_dec (inject_Z (Qfloor y)) y) as [H|H]; [exact H|].
      exfalso. apply E. apply Qle_antisym; assumption. }
    assert (F : Qfloor (- y) = (- Qfloor y - 1)%Z).
    { apply floor_unique; rewrite inject_Z_pred, inject_Z_opp; lra. }
    destruct (nearest_even_cases (- y)) as [_ C'].
    rewrite F in C'. rewrite inject_Z_pred, inject_Z_opp in C'.
    replace (- Qfloor y - 1 + 1)%Z with (- Qfloor y)%Z in C' by lia.
    assert (Ev : Z.even (- Qfloor y - 1) = negb (Z.even (Qfloor y))).
    { replace (- Qfloor y - 1)%Z with (- (Qfloor y + 1))%Z by lia.
      rewrite Z.even_opp. replace (Qfloor y + 1)%Z with (Z.succ (Qfloor y)) by lia.
      rewrite Z.even_succ. now rewrite <- Z.negb_even. }
    rewrite Ev in C'.
    destruct C as [[Hd ->] | [[Hd ->] | [Hd ->]]];
    destruct C' as [[Hd' ->] | [[Hd' ->] | [Hd' ->]]];
    try lia; try (exfalso; lra); destruct (Z.even (Qfloor y)); simpl; lia.
Qed.

(** [binary64]: the value, the error bound, the integers, the monotony. *)
Lemma binary64_zero (x : Q) : x == 0 -> binary64 x = 0.
Proof.
  intros E. unfold binary64. apply Qeq_bool_iff in E. now rewrite E.
Qed.

Lemma binary64_nonzero (x : Q) :
  ~ x == 0 ->
  binary64 x == inject_Z (nearest_even (x / 2 ^ exponent x)) * 2 ^ exponent x.
Proof.
  intros E. unfold binary64.
  destruct (Qeq_bool x 0) eqn:B.
  - apply Qeq_bool_iff in B. contradiction.
  - apply Qred_correct.
Qed.

Lemma Qabs_pos_lt (x : Q) : ~ x == 0 -> 0 < Qabs x.
Proof.
  intros E. destruct (Qlt_le_dec 0 (Qabs x)) as [H|H]; [exact H|].
  exfalso. apply E. pose proof (Qabs_nonneg x).
  assert (Z0 : Qabs x == 0) by (apply Qle_antisym; assumption).
  pose proof (Qle_Qabs x). pose proof (Qle_Qabs (- x)) as H2. rewrite Qabs_opp in H2.
  lra.
Qed.

Lemma eps_pow2 : eps == 2 ^ (-53).
Proof. vm_compute. reflexivity. Qed.

Lemma eta_pow2 : eta == 2 ^ (-1075).
Proof. vm_compute. reflexivity. Qed.

Lemma exponent_cases (x : Q) :
  (exponent x = -1074 /\ ilog2 (Qabs x) - 52 <= -1074)%Z \/
  (exponent x = ilog2 (Qabs x) - 52 /\ -1074 <= ilog2 (Qabs x) - 52)%Z.
Proof. unfold exponent. lia. Qed.

(** Half a unit in the last place is within the error bound. *)
Lemma half_ulp_bound (x : Q) :
  ~ x == 0 -> 2 ^ exponent x * (1 # 2) <= Qabs x * eps + eta.
Proof.
  intros E. pose proof (Qabs_pos_lt x E) as Hx.
  pose proof (ilog2_spec (Qabs x) Hx) as [HL _].
  pose proof eps_pos. pose proof eta_pos.
  destruct (exponent_cases x) as [[-> _] | [-> _]].
  - assert (2 ^ (-1074) * (1 # 2) == eta) by (vm_compute; reflexivity).
    assert (0 <= Qabs x * eps) by (apply Qmult_le_0_compat; lra).
    lra.
  - assert (P : 2 ^ (ilog2 (Qabs x) - 52) * (1 # 2) == 2 ^ ilog2 (Qabs x) * eps).
    { rewrite eps_pow2.
      replace (ilog2 (Qabs x) - 52)%Z with (ilog2 (Qabs x) + -52)%Z by lia.
      rewrite pow2_plus.
      assert (2 ^ (-52) * (1 # 2) == 2 ^ (-53)) by (vm_compute; reflexivity).
      set (p := 2 ^ ilog2 (Qabs x)) in *.
      set (a := 2 ^ (-52)) in *. set (b := 2 ^ (-53)) in *. nra. }
    rewrite P.
    assert (2 ^ ilog2 (Qabs x) * eps <= Qabs x * eps).
    { apply Qmult_le_compat_r; [exact HL | lra]. }
    lra.
Qed.

Lemma binary64_error (x : Q) : Qabs (binary64 x - x) <= Qabs x * eps + eta.
Proof.
  pose proof eps_pos. pose proof eta_pos. pose proof (Qabs_nonneg x).
  assert (0 <= Qabs x * eps) by (apply Qmult_le_0_compat; lra).
  destruct (Qeq_dec x 0) as [E|E].
  - rewrite (binary64_zero x E). apply Qabs_Qle_condition. lra.
  - rewrite (binary64_nonzero x E).
    pose proof (half_ulp_bound x E) as Hb.
    pose proof (pow2_pos (exponent x)) as Hs.
    pose proof (nearest_even_error (x / 2 ^ exponent x)) as [N1 N2].
    assert (Ex : x == (x / 2 ^ exponent x) * 2 ^ exponent x).
    { field. intros Z. rewrite Z in Hs. discriminate. }
    set (s := 2 ^ exponent x) in *. set (y := x / s) in *.
    set (N := inject_Z (nearest_even y)) in *.
    apply Qabs_Qle_condition. split; nra.
Qed.

Lemma pow2_opp_mul (e : Z) : 2 ^ (- e) * 2 ^ e == 1.
Proof. rewrite <- pow2_plus. replace (- e + e)%Z with 0%Z by lia. reflexivity. Qed.

Lemma div_pow2 (x : Q) (e : Z) : x / 2 ^ e == x * 2 ^ (- e).
Proof. unfold Qdiv. now rewrite Qpower_opp. Qed.

Lemma ilog2_int_range (n : Z) :
  (1 <= n <= 2 ^ 53)%Z -> (0 <= ilog2 (inject_Z n) <= 53)%Z.
Proof.
  intros [H1 H2].
  assert (Hp : 0 < inject_Z n) by (change 0 with (inject_Z 0); rewrite <- Zlt_Qlt; lia).
  pose proof (ilog2_spec _ Hp) as [L1 L2].
  assert (Q1 : 1 <= inject_Z n) by (change 1 with (inject_Z 1); rewrite <- Zle_Qle; lia).
  assert (Q2 : inject_Z n <= 2 ^ 53).
  { rewrite (pow2_Z 53) by lia. rewrite <- Zle_Qle. exact H2. }
  split.
  - assert (2 ^ 0 < 2 ^ (ilog2 (inject_Z n) + 1)) by (change (2 ^ 0) with 1; lra).
    apply pow2_lt_inv in H. lia.
  - apply (Qpower_le_compat_l_inv 2); [lra | reflexivity].
Qed.

Lemma Qabs_inject_Z (n : Z) : Qabs (inject_Z n) = inject_Z (Z.abs n).
Proof. reflexivity. Qed.

Lemma binary64_int (n : Z) :
  (Z.abs n <= 2 ^ 53)%Z -> binary64 (inject_Z n) == inject_Z n.
Proof.
  intros Hn. destruct (Z.eq_dec n 0%Z) as [->|Hz].
  - rewrite binary64_zero; reflexivity.
  - assert (Hnz : ~ inject_Z n == 0).
    { intros E. apply Hz. unfold Qeq in E. simpl in E. lia. }
    rewrite (binary64_nonzero _ Hnz).
    assert (Ha : (1 <= Z.abs n <= 2 ^ 53)%Z) by lia.
    pose proof (ilog2_int_range _ Ha) as HL.
    assert (Hp : 0 < inject_Z (Z.abs n)) by (change 0 with (inject_Z 0); rewrite <- Zlt_Qlt; lia).
    pose proof (ilog2_spec _ Hp) as [L1 _].
    unfold exponent. rewrite Qabs_inject_Z.
    set (L := ilog2 (inject_Z (Z.abs n))) in *.
    replace (Z.max (L - 52) (-1074)) with (L - 52)%Z by lia.
    destruct (Z.eq_dec L 53%Z) as [E53|N53].
    + rewrite E53 in *. change (53 - 52)%Z with 1%Z.
      assert (Hab : Z.abs n = (2 ^ 53)%Z).
      { apply Z.le_antisymm; [lia|]. rewrite Zle_Qle, <- (pow2_Z 53) by lia. exact L1. }
      destruct (Z.abs_spec n) as [[_ En] | [_ En]]; rewrite En in Hab.
      * rewrite Hab. vm_compute. reflexivity.
      * replace n with (- 2 ^ 53)%Z by lia. vm_compute. reflexivity.
    + set (k := (52 - L)%Z). assert (Hk : (0 <= k)%Z) by (unfold k; lia).
      replace (L - 52)%Z with (- k)%Z by (unfold k; lia).
      assert (Ey : inject_Z n / 2 ^ (- k) == inject_Z (n * 2 ^ k)).
      { rewrite div_pow2, Z.opp_involutive, inject_Z_mult, (pow2_Z k) by exact Hk.
        reflexivity. }
      rewrite (nearest_even_compat _ _ Ey), nearest_even_Z, inject_Z_mult.
      rewrite <- (pow2_Z k) by exact Hk.
      pose proof (pow2_opp_mul k) as P. rewrite Qmult_comm in P.
      set (a := 2 ^ k) in *. set (b := 2 ^ (- k)) in *. set (N := inject_Z n).
      rewrite <- Qmult_assoc, P. ring.
Qed.

Lemma Qabs_opp_eq (x : Q) : Qabs (- x) = Qabs x.
Proof. destruct x as [n d]. unfold Qabs, Qopp. simpl. now rewrite Z.abs_opp. Qed.

Lemma exponent_opp (x : Q) : exponent (- x) = exponent x.
Proof. unfold exponent. now rewrite Qabs_opp_eq. Qed.

Lemma binary64_opp (x : Q) : binary64 (- x) == - binary64 x.
Proof.
  destruct (Qeq_dec x 0) as [E|E].
  - rewrite (binary64_zero x E), (binary64_zero (- x)); [reflexivity | lra].
  - assert (E' : ~ - x == 0) by (intros H; apply E; lra).
    rewrite (binary64_nonzero x E), (binary64_nonzero _ E'), exponent_opp.
    assert (Ey : - x / 2 ^ exponent x == - (x / 2 ^ exponent x)).
    { unfold Qdiv. ring. }
    rewrite (nearest_even_compat _ _ Ey), nearest_even_opp, inject_Z_opp. ring.
Qed.

(** Rounding does not cross a power of two that the last place divides. *)
Lemma binary64_threshold (x : Q) (t : Z) :
  ~ x == 0 -> (exponent x <= t)%Z ->
  (x <= 2 ^ t -> binary64 x <= 2 ^ t) /\ (2 ^ t <= x -> 2 ^ t <= binary64 x).
Proof.
  intros E Ht. rewrite (binary64_nonzero x E).
  set (e := exponent x) in *.
  pose proof (pow2_pos e) as Hs.
  assert (Et : 2 ^ t == inject_Z (2 ^ (t - e)) * 2 ^ e).
  { rewrite <- pow2_Z by lia. rewrite <- pow2_plus.
    replace (t - e + e)%Z with t by lia. reflexivity. }
  assert (Ex : x == (x / 2 ^ e) * 2 ^ e).
  { field. intros Z. rewrite Z in Hs. discriminate. }
  set (y := x / 2 ^ e) in *.
  split; intros H; rewrite Et in *; rewrite Ex in H;
    apply Qmult_le_r in H; try exact Hs;
    apply Qmult_le_r; try exact Hs;
    apply nearest_even_mono in H; rewrite nearest_even_Z in H;
    rewrite <- Zle_Qle; exact H.
Qed.

Lemma binary64_nonneg (x : Q) : 0 <= x -> 0 <= binary64 x.
Proof.
  intros Hx. destruct (Qeq_dec x 0) as [E|E].
  - rewrite (binary64_zero x E). apply Qle_refl.
  - rewrite (binary64_nonzero x E).
    pose proof (pow2_pos (exponent x)) as Hs.
    assert (Hy : inject_Z 0 <= x / 2 ^ exponent x).
    { apply Qle_shift_div_l; [exact Hs|]. change (inject_Z 0) with 0. lra. }
    apply nearest_even_mono in Hy. rewrite nearest_even_Z in Hy.
    apply Qmult_le_0_compat; [|lra].
    change 0 with (inject_Z 0). rewrite <- Zle_Qle. exact Hy.
Qed.

Lemma binary64_nonpos (x : Q) : x <= 0 -> binary64 x <= 0.
Proof.
  intros Hx. assert (H : 0 <= - x) by lra.
  apply binary64_nonneg in H. rewrite binary64_opp in H. lra.
Qed.

Lemma exponent_le_ilog2 (x : Q) :
  (-1074 <= ilog2 (Qabs x) - 52)%Z -> (exponent x <= ilog2 (Qabs x))%Z.
Proof. unfold exponent. lia. Qed.

Lemma binary64_mono_pos (x y : Q) : 0 < x -> x <= y -> binary64 x <= binary64 y.
Proof.
  intros Hx Hxy.
  assert (Hy : 0 < y) by lra.
  assert (Ex : ~ x == 0) by (intros E; lra).
  assert (Ey : ~ y == 0) by (intros E; lra).
  assert (Ax : Qabs x == x) by (apply Qabs_pos; lra).
  assert (Ay : Qabs y == y) by (apply Qabs_pos; lra).
  pose proof (ilog2_spec (Qabs x) (Qabs_pos_lt x Ex)) as [X1 X2].
  pose proof (ilog2_spec (Qabs y) (Qabs_pos_lt y Ey)) as [Y1 Y2].
  assert (HL : (ilog2 (Qabs x) <= ilog2 (Qabs y))%Z).
  { assert (H : 2 ^ ilog2 (Qabs x) < 2 ^ (ilog2 (Qabs y) + 1)) by lra.
    apply pow2_lt_inv in H. lia. }
  destruct (Z.eq_dec (exponent x) (exponent y)) as [Ee|Ne].
  - rewrite (binary64_nonzero x Ex), (binary64_nonzero y Ey), Ee.
    pose proof (pow2_pos (exponent y)) as Hs.
    apply Qmult_le_r; [exact Hs|]. rewrite <- Zle_Qle.
    apply nearest_even_mono. apply Qmult_le_r with (z := 2 ^ exponent y); [exact Hs|].
    assert (F1 : x / 2 ^ exponent y * 2 ^ exponent y == x).
    { field. intros Z. rewrite Z in Hs. discriminate. }
    assert (F2 : y / 2 ^ exponent y * 2 ^ exponent y == y).
    { field. intros Z. rewrite Z in Hs. discriminate. }
    rewrite F1, F2. exact Hxy.
  - assert (Hlt : (ilog2 (Qabs x) < ilog2 (Qabs y))%Z /\
                  (-1074 <= ilog2 (Qabs y) - 52)%Z /\
                  (exponent x <= ilog2 (Qabs y))%Z).
    { unfold exponent in *. lia. }
    destruct Hlt as (Hlt & Hey & Hex).
    set (t := ilog2 (Qabs y)) in *.
    assert (Hxt : x <= 2 ^ t).
    { apply Qle_trans with (2 ^ (ilog2 (Qabs x) + 1)); [lra|]. apply pow2_le. lia. }
    pose proof (proj1 (binary64_threshold x t Ex Hex) Hxt).
    assert (Hyt : 2 ^ t <= y) by lra.
    pose proof (proj2 (binary64_threshold y t Ey (exponent_le_ilog2 y Hey)) Hyt).
    lra.
Qed.

Lemma binary64_mono (x y : Q) : x <= y -> binary64 x <= binary64 y.
Proof.
  intros Hxy. destruct (Qlt_le_dec 0 x) as [Hx|Hx].
  - now apply binary64_mono_pos.
  - destruct (Qlt_le_dec y 0) as [Hy|Hy].
    + assert (H : binary64 (- y) <= binary64 (- x)) by (apply binary64_mono_pos; lra).
      rewrite !binary64_opp in H. lra.
    + pose proof (binary64_nonpos x Hx). pose proof (binary64_nonneg y Hy). lra.
Qed.

(** The rounding of binary64 is a rounding. *)
Lemma rounding_binary64 : rounding binary64.
Proof.
  split; [exact binary64_mono|]. split; [exact binary64_int | exact binary64_error].
Qed.

Section Rounded.

Variable rnd : Q -> Q.
Hypothesis Hrnd : rounding rnd.

Lemma rnd_mono (x y : Q) : x <= y -> rnd x <= rnd y.
Proof. apply Hrnd. Qed.

Lemma rnd_compat (x y : Q) : x == y -> rnd x == rnd y.
Proof.
  intros E. apply Qle_antisym; apply rnd_mono; rewrite E; apply Qle_refl.
Qed.

Lemma rnd_int (n : Z) (x : Q) :
  (Z.abs n <= 2 ^ 53)%Z -> x == inject_Z n -> rnd x == inject_Z n.
Proof.
  intros Hn E. rewrite (rnd_compat _ _ E). now apply Hrnd.
Qed.

Lemma rnd_u8 (c : Z) (x : Q) : is_u8 c -> x == inject_Z c -> rnd x == inject_Z c.
Proof. intros [H0 H1]. apply rnd_int. lia. Qed.

Lemma rnd_0 : rnd 0 == 0.
Proof. apply (rnd_int 0); [vm_compute; discriminate | reflexivity]. Qed.

Lemma rnd_1 : rnd 1 == 1.
Proof. apply (rnd_int 1); [vm_compute; discriminate | reflexivity]. Qed.

Lemma rnd_6 : rnd 6 == 6.
Proof. apply (rnd_int 6); [vm_compute; discriminate | reflexivity]. Qed.

Lemma rnd_error (x : Q) : x - (Qabs x * eps + eta) <= rnd x <= x + (Qabs x * eps + eta).
Proof.
  destruct Hrnd as (_ & _ & He). specialize (He x).
  apply Qabs_diff_Qle_condition. rewrite Qabs_Qminus. exact He.
Qed.

(** The error of one operation whose exact result lies within [-B, B]. *)
Lemma rnd_error_bounded (x B : Q) :
  - B <= x <= B -> x - (B * eps + eta) <= rnd x <= x + (B * eps + eta).
Proof.
  intros Hx. pose proof (rnd_error x) as He.
  assert (Qabs x <= B) by (apply Qabs_Qle_condition; exact Hx).
  assert (Qabs x * eps <= B * eps).
  { apply Qmult_le_compat_r; [assumption | apply Qlt_le_weak, eps_pos]. }
  lra.
Qed.

(** *** blend *)

(** With bias 0 a component of the first color comes back. *)
Lemma blend_component_first (ca cb : Z) :
  is_u8 ca -> is_u8 cb -> blend_component rnd ca cb 0 (fsub rnd 1 0) = ca.
Proof.
  intros Ha Hb. unfold blend_component, fadd, fmul, fsub.
  assert (E1 : rnd (1 - 0) == 1) by (apply (rnd_int 1); [vm_compute; discriminate | reflexivity]).
  assert (Ep : rnd (inject_Z ca * rnd (1 - 0)) == inject_Z ca).
  { apply rnd_u8; [exact Ha | rewrite E1; ring]. }
  assert (Eq : rnd (inject_Z cb * 0) == 0).
  { apply (rnd_int 0); [vm_compute; discriminate | ring]. }
  assert (Es : rnd (rnd (inject_Z ca * rnd (1 - 0)) + rnd (inject_Z cb * 0)) == inject_Z ca).
  { apply rnd_u8; [exact Ha | rewrite Ep, Eq; ring]. }
  apply static_cast_round; [exact Ha | rewrite Es; lra | rewrite Es; lra].
Qed.

(** With bias 1 a component of the second color comes back. *)
Lemma blend_component_second (ca cb : Z) :
  is_u8 ca -> is_u8 cb -> blend_component rnd ca cb 1 (fsub rnd 1 1) = cb.
Proof.
  intros Ha Hb. unfold blend_component, fadd, fmul, fsub.
  assert (E1 : rnd (1 - 1) == 0) by (apply (rnd_int 0); [vm_compute; discriminate | reflexivity]).
  assert (Ep : rnd (inject_Z ca * rnd (1 - 1)) == 0).
  { apply (rnd_int 0); [vm_compute; discriminate | rewrite E1; ring]. }
  assert (Eq : rnd (inject_Z cb * 1) == inject_Z cb).
  { apply rnd_u8; [exact Hb | ring]. }
  assert (Es : rnd (rnd (inject_Z ca * rnd (1 - 1)) + rnd (inject_Z cb * 1)) == inject_Z cb).
  { apply rnd_u8; [exact Hb | rewrite Ep, Eq; ring]. }
  apply static_cast_round; [exact Hb | rewrite Es; lra | rewrite Es; lra].
Qed.

(** Blending a component with itself: the four roundings move the exact
    value by far less than one half. *)
Lemma blend_component_same (c : Z) (bias : Q) :
  is_u8 c -> 0 <= bias <= 1 ->
  blend_component rnd c c bias (fsub rnd 1 bias) = c.
Proof.
  intros Hc Hb. unfold blend_component, fadd, fmul, fsub.
  pose proof (u8_bounds c Hc) as HC.
  pose proof eps_pos. pose proof eta_pos. pose proof eps_small. pose proof eta_small.
  set (C := inject_Z c) in *.
  set (ib := rnd (1 - bias)).
  assert (Hib : 0 <= ib <= 1).
  { split.
    - rewrite <- rnd_0. apply rnd_mono. lra.
    - rewrite <- rnd_1. apply rnd_mono. lra. }
  pose proof (rnd_error_bounded (1 - bias) 1 ltac:(lra)) as Eib. fold ib in Eib.
  assert (HCib : - (255) <= C * ib <= 255) by nra.
  assert (HCb : - (255) <= C * bias <= 255) by nra.
  pose proof (rnd_error_bounded (C * ib) 255 HCib) as Ep.
  pose proof (rnd_error_bounded (C * bias) 255 HCb) as Eq.
  set (p := rnd (C * ib)) in *. set (q := rnd (C * bias)) in *.
  assert (Hpq : - (512) <= p + q <= 512) by nra.
  pose proof (rnd_error_bounded (p + q) 512 Hpq) as Es.
  set (s := rnd (p + q)) in *.
  apply static_cast_round; [exact Hc | fold C | fold C]; nra.
Qed.

(** C10. For colors [a] and [b], [blend a b 0] is [a] and [blend a b 1] is
    [b]; and for every bias in [0, 1], [blend a a bias] is [a]. *)
Theorem blend_endpoints_and_same (a b : color) :
  valid a -> valid b ->
  blend rnd a b 0 = Returns a /\
  blend rnd a b 1 = Returns b /\
  forall bias, 0 <= bias <= 1 -> blend rnd a a bias = Returns a.
Proof.
  destruct a as [[ra ga ba aa]], b as [[rb gb bb ab]].
  intros (Ha1 & Ha2 & Ha3 & Ha4) (Hb1 & Hb2 & Hb3 & Hb4). simpl in *.
  unfold blend, red, green, blue, alpha, color_rgba. simpl m_color. simpl r.
  simpl g. simpl b. simpl Color.a.
  split; [|split].
  - change (fle 0 0) with true. change (fle 0 1) with true. simpl.
    now rewrite !blend_component_first.
  - change (fle 0 1) with true. change (fle 1 1) with true. simpl.
    now rewrite !blend_component_second.
  - intros bias Hb. rewrite (fle_true 0 bias), (fle_true bias 1) by lra. simpl.
    now rewrite !blend_component_same.
Qed.

(** [static_cast<u8>(std::round(x))] of a number less than one half outside
    a range of [u8] values stays in the range. *)
Lemma static_cast_round_between (x : Q) (lo hi : Z) :
  (0 <= lo)%Z -> (hi <= 255)%Z ->
  inject_Z lo - (1 # 2) < x -> x < inject_Z hi + (1 # 2) ->
  (lo <= static_cast_u8 (round x) <= hi)%Z.
Proof.
  intros Hlo Hhi Hx1 Hx2. unfold static_cast_u8, round. rewrite trunc_inject_Z.
  assert (Hk : (lo <= (if Qle_bool 0 x then Qfloor (x + (1 # 2)) else Qceiling (x - (1 # 2))) <= hi)%Z).
  { destruct (Qle_bool 0 x).
    - pose proof (Qlt_floor (x + (1 # 2))) as H2. rewrite inject_Z_succ in H2.
      pose proof (Qfloor_le (x + (1 # 2))) as H1.
      split.
      + apply Z.lt_pred_le. unfold Z.pred. rewrite Zlt_Qlt.
        replace (lo + -1)%Z with (lo - 1)%Z by lia. rewrite inject_Z_pred. lra.
      + apply Z.lt_succ_r. unfold Z.succ. rewrite Zlt_Qlt, inject_Z_succ. lra.
    - pose proof (Qle_ceiling (x - (1 # 2))) as H1.
      pose proof (Qceiling_lt (x - (1 # 2))) as H2. rewrite inject_Z_pred in H2.
      split.
      + apply Z.lt_pred_le. unfold Z.pred. rewrite Zlt_Qlt.
        replace (lo + -1)%Z with (lo - 1)%Z by lia. rewrite inject_Z_pred. lra.
      + apply Z.lt_succ_r. unfold Z.succ. rewrite Zlt_Qlt, inject_Z_succ. lra. }
  rewrite Z.mod_small by lia. exact Hk.
Qed.

(** A convex combination of two numbers of a range stays in the range. *)
Lemma convex_between (L H A B t : Q) :
  L <= A <= H -> L <= B <= H -> 0 <= t <= 1 ->
  L <= A * (1 - t) + B * t <= H.
Proof.
  intros HA HB Ht.
  assert (E1 : 0 <= (A - L) * (1 - t)) by (apply Qmult_le_0_compat; lra).
  assert (E2 : 0 <= (B - L) * t) by (apply Qmult_le_0_compat; lra).
  assert (E3 : 0 <= (H - A) * (1 - t)) by (apply Qmult_le_0_compat; lra).
  assert (E4 : 0 <= (H - B) * t) by (apply Qmult_le_0_compat; lra).
  lra.
Qed.

(** The product of a component with a number of [0, 1], and with a small
    error. *)
Lemma component_times_unit (A t : Q) :
  0 <= A <= 255 -> 0 <= t <= 1 -> 0 <= A * t <= 255.
Proof.
  intros HA Ht.
  assert (E1 : 0 <= A * t) by (apply Qmult_le_0_compat; lra).
  assert (E2 : 0 <= (255 - A) * t) by (apply Qmult_le_0_compat; lra).
  lra.
Qed.

Lemma component_times_error (A d e : Q) :
  0 <= A <= 255 -> - e <= d <= e -> - (255 * e) <= A * d <= 255 * e.
Proof.
  intros HA Hd.
  assert (E1 : 0 <= A * (e - d)) by (apply Qmult_le_0_compat; lra).
  assert (E2 : 0 <= A * (d + e)) by (apply Qmult_le_0_compat; lra).
  assert (E3 : 0 <= (255 - A) * (e + e)) by (apply Qmult_le_0_compat; lra).
  lra.
Qed.

(** A blended component lies between the two components it is blended
    from: the four roundings move the exact convex combination by far less
    than one half. *)
Lemma blend_component_between (ca cb : Z) (bias : Q) :
  is_u8 ca -> is_u8 cb -> 0 <= bias <= 1 ->
  (Z.min ca cb <= blend_component rnd ca cb bias (fsub rnd 1 bias) <= Z.max ca cb)%Z.
Proof.
  intros Ha Hb Hbias. unfold blend_component, fadd, fmul, fsub.
  pose proof (u8_bounds ca Ha) as HA. pose proof (u8_bounds cb Hb) as HB.
  assert (HlA : inject_Z (Z.min ca cb) <= inject_Z ca) by (rewrite <- Zle_Qle; lia).
  assert (HlB : inject_Z (Z.min ca cb) <= inject_Z cb) by (rewrite <- Zle_Qle; lia).
  assert (HhA : inject_Z ca <= inject_Z (Z.max ca cb)) by (rewrite <- Zle_Qle; lia).
  assert (HhB : inject_Z cb <= inject_Z (Z.max ca cb)) by (rewrite <- Zle_Qle; lia).
  assert (Hlo : (0 <= Z.min ca cb)%Z) by (destruct Ha, Hb; lia).
  assert (Hhi : (Z.max ca cb <= 255)%Z) by (destruct Ha, Hb; lia).
  pose proof eps_pos. pose proof eta_pos. pose proof eps_small. pose proof eta_small.
  set (A := inject_Z ca) in *. set (B := inject_Z cb) in *.
  set (L := inject_Z (Z.min ca cb)) in *. set (H' := inject_Z (Z.max ca cb)) in *.
  set (ib := rnd (1 - bias)).
  assert (Hib : 0 <= ib <= 1).
  { split.
    - rewrite <- rnd_0. apply rnd_mono. lra.
    - rewrite <- rnd_1. apply rnd_mono. lra. }
  pose proof (rnd_error_bounded (1 - bias) 1 ltac:(lra)) as Eib. fold ib in Eib.
  clearbody ib.
  pose proof (component_times_unit A ib HA Hib) as HAib.
  pose proof (component_times_unit B bias HB Hbias) as HBb.
  pose proof (convex_between L H' A B bias ltac:(lra) ltac:(lra) Hbias) as Hconv.
  pose proof (component_times_error A (ib - (1 - bias)) (1 * eps + eta) HA ltac:(lra)) as Hd.
  pose proof (rnd_error_bounded (A * ib) 255 ltac:(lra)) as Ep.
  pose proof (rnd_error_bounded (B * bias) 255 ltac:(lra)) as Eq.
  set (p := rnd (A * ib)) in *. set (q := rnd (B * bias)) in *. clearbody p q.
  pose proof (rnd_error_bounded (p + q) 512 ltac:(lra)) as Es.
  set (s := rnd (p + q)) in *. clearbody s.
  apply static_cast_round_between; [exact Hlo | exact Hhi | fold L | fold H']; lra.
Qed.

(** X16. For a bias in [0, 1], [blend] returns a color each of whose
    components, alpha included, lies between the same components of the two
    colors it blends. *)
Theorem blend_stays_between (a b : color) (bias : Q) :
  valid a -> valid b -> 0 <= bias <= 1 ->
  exists c,
    blend rnd a b bias = Returns c /\ valid c /\
    (Z.min (red a) (red b) <= red c <= Z.max (red a) (red b))%Z /\
    (Z.min (green a) (green b) <= green c <= Z.max (green a) (green b))%Z /\
    (Z.min (blue a) (blue b) <= blue c <= Z.max (blue a) (blue b))%Z /\
    (Z.min (alpha a) (alpha b) <= alpha c <= Z.max (alpha a) (alpha b))%Z.
Proof.
  destruct a as [[ra ga ba aa]], b as [[rb gb bb ab]].
  intros (Ha1 & Ha2 & Ha3 & Ha4) (Hb1 & Hb2 & Hb3 & Hb4) Hbias. simpl in *.
  unfold blend, red, green, blue, alpha, color_rgba. simpl m_color. simpl r.
  simpl g. simpl b. simpl Color.a.
  rewrite (fle_true 0 bias), (fle_true bias 1) by lra. simpl.
  eexists. split; [reflexivity|]. simpl.
  split; [|split; [|split; [|split]]].
  - unfold valid; simpl. split; [|split; [|split]]; apply static_cast_u8_is_u8.
  - now apply blend_component_between.
  - now apply blend_component_between.
  - now apply blend_component_between.
  - now apply blend_component_between.
Qed.

(** *** from_hsv and from_hsl *)

(** Inputs within the documented ranges pass the entry assertions. *)
Lemma entry_assertions_hold (hue saturation value : Q) :
  0 <= hue <= 360 -> 0 <= saturation <= 100 -> 0 <= value <= 100 ->
  entry_assertions hue saturation value = true.
Proof. intros Hh Hs Hv. unfold entry_assertions. compare. reflexivity. Qed.

(** [hp = hue / 60] lies in [0, 6]. *)
Lemma hp_range (hue : Q) : 0 <= hue <= 360 -> 0 <= fdiv rnd hue 60 <= 6.
Proof.
  intros Hh. unfold fdiv. split.
  - rewrite <- rnd_0. apply rnd_mono. unfold Qdiv.
    apply Qmult_le_0_compat; [lra | discriminate].
  - rewrite <- rnd_6. apply rnd_mono.
    apply Qle_shift_div_r; [reflexivity | lra].
Qed.

(** [hue = 360] gives [hp = 6]. *)
Lemma hp_360 : fdiv rnd 360 60 == 6.
Proof. unfold fdiv. apply (rnd_int 6); [vm_compute; discriminate | reflexivity]. Qed.

(** The chain of [from_hsv]: for [hp] in [0, 6] exactly one condition
    holds. *)
Lemma hsv_one_branch (hp chroma x : Q) :
  0 <= hp <= 6 -> holding (conditions (hsv_branches hp chroma x)) = 1%nat.
Proof.
  intros Hhp. unfold hsv_branches, conditions, holding. simpl map.
  destruct (Qlt_le_dec 1 hp) as [H1|H1]; [|compare; reflexivity].
  destruct (Qlt_le_dec 2 hp) as [H2|H2]; [|compare; reflexivity].
  destruct (Qlt_le_dec 3 hp) as [H3|H3]; [|compare; reflexivity].
  destruct (Qlt_le_dec 4 hp) as [H4|H4]; [|compare; reflexivity].
  destruct (Qlt_le_dec 5 hp) as [H5|H5]; compare; reflexivity.
Qed.

(** The chain of [from_hsl]: for [hp] in [0, 6) exactly one condition
    holds, and for [hp = 6] none does. *)
Lemma hsl_one_branch (hp chroma x : Q) :
  0 <= hp < 6 -> holding (conditions (hsl_branches hp chroma x)) = 1%nat.
Proof.
  intros Hhp. unfold hsl_branches, conditions, holding. simpl map.
  destruct (Qlt_le_dec hp 1) as [H1|H1]; [compare; reflexivity|].
  destruct (Qlt_le_dec hp 2) as [H2|H2]; [compare; reflexivity|].
  destruct (Qlt_le_dec hp 3) as [H3|H3]; [compare; reflexivity|].
  destruct (Qlt_le_dec hp 4) as [H4|H4]; [compare; reflexivity|].
  destruct (Qlt_le_dec hp 5) as [H5|H5]; compare; reflexivity.
Qed.

Lemma hsl_no_branch (hp chroma x : Q) :
  hp == 6 ->
  holding (conditions (hsl_branches hp chroma x)) = 0%nat /\
  select (hsl_branches hp chroma x) (0, 0, 0) = (0, 0, 0).
Proof.
  intros Hhp. unfold hsl_branches, conditions, holding. simpl map.
  compare. split; reflexivity.
Qed.

(** *** Values that do not depend on their representation *)

Lemma trunc_compat (x y : Q) : x == y -> trunc x = trunc y.
Proof.
  intros E. unfold trunc.
  assert (H1 : Qle_bool 0 x = Qle_bool 0 y) by now rewrite E.
  assert (H2 : Qfloor x = Qfloor y) by now rewrite E.
  assert (H3 : Qceiling x = Qceiling y) by now rewrite E.
  now rewrite H1, H2, H3.
Qed.

Lemma round_compat (x y : Q) : x == y -> round x = round y.
Proof.
  intros E. unfold round.
  assert (H1 : Qle_bool 0 x = Qle_bool 0 y) by now rewrite E.
  assert (H2 : Qfloor (x + (1 # 2)) = Qfloor (y + (1 # 2))) by now rewrite E.
  assert (H3 : Qceiling (x - (1 # 2)) = Qceiling (y - (1 # 2))) by now rewrite E.
  now rewrite H1, H2, H3.
Qed.

Lemma fmod_compat (x x' y : Q) : x == x' -> fmod x y == fmod x' y.
Proof.
  intros E. unfold fmod. rewrite (trunc_compat (x / y) (x' / y)) by now rewrite E.
  now rewrite E.
Qed.

Lemma component_compat (c c' m m' : Q) :
  c == c' -> m == m' -> component rnd c m = component rnd c' m'.
Proof.
  intros Ec Em. unfold component, fmul, fadd, static_cast_u8. f_equal.
  apply trunc_compat. rewrite (round_compat _ (rnd (rnd (c' + m') * 255))); [reflexivity|].
  apply rnd_compat. apply Qmult_comp; [|reflexivity]. apply rnd_compat.
  now rewrite Ec, Em.
Qed.

(** A component whose value before scaling is the integer [k], 0 or 1. *)
Lemma component_value (c m : Q) (k : Z) :
  (0 <= k <= 1)%Z -> c + m == inject_Z k -> component rnd c m = (k * 255)%Z.
Proof.
  intros Hk E. unfold component, fmul, fadd.
  assert (E1 : rnd (c + m) == inject_Z k) by (apply (rnd_int k); [lia | exact E]).
  assert (E2 : rnd (rnd (c + m) * 255) == inject_Z (k * 255)).
  { apply rnd_int; [lia|]. rewrite E1, inject_Z_mult. reflexivity. }
  apply static_cast_round; [unfold is_u8; lia | rewrite E2; lra | rewrite E2; lra].
Qed.

(** A property that the value of every branch and the initial value have
    holds of what the chain selects. *)
Lemma select_ind {A} (P : A -> Prop) (branches : list (bool * A)) (initial : A) :
  P initial -> (forall c v, In (c, v) branches -> P v) -> P (select branches initial).
Proof.
  intros Hi. induction branches as [|[c v] rest IH]; intros Hb; simpl; [exact Hi|].
  destruct c.
  - apply (Hb true v). now left.
  - apply IH. intros c' v' Hin. apply (Hb c' v'). now right.
Qed.

Lemma hsv_colorless (hp chroma x : Q) :
  chroma == 0 -> x == 0 -> colorless (select (hsv_branches hp chroma x) (0, 0, 0)).
Proof.
  intros Ec Ex. apply select_ind.
  - repeat split; reflexivity.
  - unfold hsv_branches. intros c v Hin. simpl in Hin.
    repeat (destruct Hin as [[= <- <-]|Hin]; [repeat split; simpl; auto; reflexivity|]).
    contradiction.
Qed.

Lemma hsl_colorless (hp chroma x : Q) :
  chroma == 0 -> x == 0 -> colorless (select (hsl_branches hp chroma x) (0, 0, 0)).
Proof.
  intros Ec Ex. apply select_ind.
  - repeat split; reflexivity.
  - unfold hsl_branches. intros c v Hin. simpl in Hin.
    repeat (destruct Hin as [[= <- <-]|Hin]; [repeat split; simpl; auto; reflexivity|]).
    contradiction.
Qed.

(** A product with a factor that is zero rounds to zero. *)
Lemma fmul_zero_l (x y : Q) : x == 0 -> fmul rnd x y == 0.
Proof. intros E. unfold fmul. apply (rnd_int 0); [vm_compute; discriminate | rewrite E; ring]. Qed.

Lemma fmul_zero_r (x y : Q) : y == 0 -> fmul rnd x y == 0.
Proof. intros E. unfold fmul. apply (rnd_int 0); [vm_compute; discriminate | rewrite E; ring]. Qed.

Lemma fdiv_zero (y : Q) : fdiv rnd 0 y == 0.
Proof.
  unfold fdiv. apply (rnd_int 0); [vm_compute; discriminate|]. unfold Qdiv. ring.
Qed.

(** What [from_hsv] returns, with the chain kept as it is. *)
Lemma from_hsv_eq (hue saturation value : Q) :
  entry_assertions hue saturation value = true ->
  from_hsv rnd hue saturation value =
    let v := fdiv rnd value 100 in
    let chroma := fmul rnd v (fdiv rnd saturation 100) in
    let hp := fdiv rnd hue 60 in
    let x := fmul rnd chroma (fsub rnd 1 (fabs (fsub rnd (fmod hp 2) 1))) in
    let rgb := select (hsv_branches hp chroma x) (0, 0, 0) in
    let m := fsub rnd v chroma in
    Returns (color_rgb (component rnd (fst (fst rgb)) m) (component rnd (snd (fst rgb)) m)
                       (component rnd (snd rgb) m)).
Proof.
  intros H. unfold from_hsv. rewrite H. unfold check, and_then. cbv zeta.
  destruct (select _ _) as [[cr cg] cb]. reflexivity.
Qed.

Lemma from_hsl_eq (hue saturation lightness : Q) :
  entry_assertions hue saturation lightness = true ->
  from_hsl rnd hue saturation lightness =
    let s := fdiv rnd saturation 100 in
    let l := fdiv rnd lightness 100 in
    let chroma := fmul rnd (fsub rnd 1 (fabs (fsub rnd (fmul rnd 2 l) 1))) s in
    let hp := fdiv rnd hue 60 in
    let x := fmul rnd chroma (fsub rnd 1 (fabs (fsub rnd (fmod hp 2) 1))) in
    let rgb := select (hsl_branches hp chroma x) (0, 0, 0) in
    let m := fsub rnd l (fdiv rnd chroma 2) in
    Returns (color_rgb (component rnd (fst (fst rgb)) m) (component rnd (snd (fst rgb)) m)
                       (component rnd (snd rgb) m)).
Proof.
  intros H. unfold from_hsl. rewrite H. unfold check, and_then. cbv zeta.
  destruct (select _ _) as [[cr cg] cb]. reflexivity.
Qed.

(** [|x - 1|] for [x] zero, and [1 - |x - 1|] after it. *)
Lemma fabs_minus_one (f : Q) : f == 0 -> fabs (fsub rnd f 1) == 1.
Proof.
  intros E. unfold fabs, fsub.
  assert (E1 : rnd (f - 1) == inject_Z (-1)).
  { apply rnd_int; [vm_compute; discriminate | rewrite E; reflexivity]. }
  rewrite E1. reflexivity.
Qed.

Lemma one_minus_one (y : Q) : y == 1 -> fsub rnd 1 y == 0.
Proof.
  intros E. unfold fsub. apply (rnd_int 0); [vm_compute; discriminate | rewrite E; reflexivity].
Qed.

(** X12. [from_hsv] with the value 0 returns black, whatever the hue and
    the saturation. *)
Theorem from_hsv_value_zero_is_black (hue saturation : Q) :
  0 <= hue <= 360 -> 0 <= saturation <= 100 ->
  from_hsv rnd hue saturation 0 = Returns black.
Proof.
  intros Hh Hs. rewrite from_hsv_eq by (apply entry_assertions_hold; lra || assumption).
  cbv zeta.
  assert (Ev : fdiv rnd 0 100 == 0) by apply fdiv_zero.
  set (v := fdiv rnd 0 100) in *.
  assert (Ec : fmul rnd v (fdiv rnd saturation 100) == 0) by now apply fmul_zero_l.
  set (chroma := fmul rnd v (fdiv rnd saturation 100)) in *.
  set (hp := fdiv rnd hue 60).
  set (x := fmul rnd chroma _).
  assert (Ex : x == 0) by now apply fmul_zero_l.
  destruct (hsv_colorless hp chroma x Ec Ex) as (R & G & B).
  assert (Em : fsub rnd v chroma == 0).
  { unfold fsub. apply (rnd_int 0); [vm_compute; discriminate | rewrite Ev, Ec; reflexivity]. }
  rewrite !(component_value _ _ 0) by (try lia; rewrite ?R, ?G, ?B, Em; reflexivity).
  reflexivity.
Qed.

(** The chroma of [from_hsl] is zero at the lightness 0 and at the
    lightness 100. *)
Lemma hsl_chroma_zero (l s : Q) (k : Z) :
  (0 <= k <= 1)%Z -> l == inject_Z k ->
  fmul rnd (fsub rnd 1 (fabs (fsub rnd (fmul rnd 2 l) 1))) s == 0.
Proof.
  intros Hk El. apply fmul_zero_l. apply one_minus_one.
  unfold fabs, fsub, fmul.
  assert (E2 : rnd (2 * l) == inject_Z (2 * k)).
  { apply rnd_int; [lia|]. rewrite El, inject_Z_mult. reflexivity. }
  assert (E3 : rnd (rnd (2 * l) - 1) == inject_Z (2 * k - 1)).
  { apply rnd_int; [lia|]. rewrite E2. unfold Z.sub. rewrite inject_Z_plus. reflexivity. }
  rewrite E3. assert (Hc : k = 0%Z \/ k = 1%Z) by lia. destruct Hc as [-> | ->]; reflexivity.
Qed.

Lemma from_hsl_extreme_lightness (hue saturation lightness : Q) (k : Z) :
  0 <= hue <= 360 -> 0 <= saturation <= 100 -> 0 <= lightness <= 100 ->
  (0 <= k <= 1)%Z -> fdiv rnd lightness 100 == inject_Z k ->
  from_hsl rnd hue saturation lightness
    = Returns (color_rgb (k * 255) (k * 255) (k * 255)).
Proof.
  intros Hh Hs Hl Hk El. rewrite from_hsl_eq by now apply entry_assertions_hold.
  cbv zeta.
  set (l := fdiv rnd lightness 100) in *.
  set (s := fdiv rnd saturation 100).
  pose proof (hsl_chroma_zero l s k Hk El) as Ec.
  set (chroma := fmul rnd _ s) in *.
  set (hp := fdiv rnd hue 60).
  set (x := fmul rnd chroma _).
  assert (Ex : x == 0) by now apply fmul_zero_l.
  destruct (hsl_colorless hp chroma x Ec Ex) as (R & G & B).
  assert (Em : fsub rnd l (fdiv rnd chroma 2) == inject_Z k).
  { unfold fsub, fdiv.
    assert (E2 : rnd (chroma / 2) == 0).
    { apply (rnd_int 0); [vm_compute; discriminate | rewrite Ec; reflexivity]. }
    apply rnd_int; [lia|]. rewrite E2, El. ring. }
  rewrite !(component_value _ _ k) by (try lia; rewrite ?R, ?G, ?B, Em; ring).
  reflexivity.
Qed.

(** X13. [from_hsl] with the lightness 0 returns black and with the
    lightness 100 white, whatever the hue and the saturation, the hue 360
    included. *)
Theorem from_hsl_lightness_extremes (hue saturation : Q) :
  0 <= hue <= 360 -> 0 <= saturation <= 100 ->
  from_hsl rnd hue saturation 0 = Returns black /\
  from_hsl rnd hue saturation 100 = Returns white.
Proof.
  intros Hh Hs. split.
  - apply (from_hsl_extreme_lightness hue saturation 0 0); try assumption; try lra; try lia.
    apply fdiv_zero.
  - apply (from_hsl_extreme_lightness hue saturation 100 1); try assumption; try lra; try lia.
    unfold fdiv. apply (rnd_int 1); [vm_compute; discriminate | reflexivity].
Qed.

(** X14. With the saturation 0 both conversions return a gray, a color
    whose red, green and blue are the same, whatever the hue; [from_hsv]
    returns white at the value 100. *)
Theorem saturation_zero_is_gray (hue value : Q) :
  0 <= hue <= 360 -> 0 <= value <= 100 ->
  (exists k, is_u8 k /\ from_hsv rnd hue 0 value = Returns (color_rgb k k k)) /\
  (exists k, is_u8 k /\ from_hsl rnd hue 0 value = Returns (color_rgb k k k)) /\
  from_hsv rnd hue 0 100 = Returns white.
Proof.
  intros Hh Hv.
  assert (Hsat : 0 <= 0 <= 100) by lra.
  assert (Hhsv : forall value', 0 <= value' <= 100 ->
            from_hsv rnd hue 0 value' =
              Returns (color_rgb
                (component rnd 0 (fsub rnd (fdiv rnd value' 100) 0))
                (component rnd 0 (fsub rnd (fdiv rnd value' 100) 0))
                (component rnd 0 (fsub rnd (fdiv rnd value' 100) 0)))).
  { intros value' Hv'. rewrite from_hsv_eq by now apply entry_assertions_hold.
    cbv zeta. set (v := fdiv rnd value' 100).
    assert (Ec : fmul rnd v (fdiv rnd 0 100) == 0) by (apply fmul_zero_r, fdiv_zero).
    set (chroma := fmul rnd v (fdiv rnd 0 100)) in *.
    set (hp := fdiv rnd hue 60). set (x := fmul rnd chroma _).
    assert (Ex : x == 0) by now apply fmul_zero_l.
    destruct (hsv_colorless hp chroma x Ec Ex) as (R & G & B).
    assert (Em : fsub rnd v chroma == fsub rnd v 0).
    { unfold fsub. apply rnd_compat. now rewrite Ec. }
    now rewrite (component_compat _ 0 _ _ R Em), (component_compat _ 0 _ _ G Em),
      (component_compat _ 0 _ _ B Em). }
  split; [|split].
  - eexists. split; [|apply Hhsv, Hv]. apply static_cast_u8_is_u8.
  - rewrite from_hsl_eq by now apply entry_assertions_hold.
    cbv zeta. set (l := fdiv rnd value 100).
    set (s := fdiv rnd 0 100).
    assert (Es : s == 0) by apply fdiv_zero.
    set (chroma := fmul rnd _ s).
    assert (Ec : chroma == 0) by now apply fmul_zero_r.
    set (hp := fdiv rnd hue 60). set (x := fmul rnd chroma _).
    assert (Ex : x == 0) by now apply fmul_zero_l.
    destruct (hsl_colorless hp chroma x Ec Ex) as (R & G & B).
    set (m := fsub rnd l _).
    exists (component rnd 0 m). split; [apply static_cast_u8_is_u8|].
    now rewrite (component_compat _ 0 m m R (Qeq_refl m)), (component_compat _ 0 m m G (Qeq_refl m)),
      (component_compat _ 0 m m B (Qeq_refl m)).
  - rewrite Hhsv by lra.
    assert (Em : fsub rnd (fdiv rnd 100 100) 0 == inject_Z 1).
    { unfold fsub, fdiv.
      assert (E1 : rnd (100 / 100) == 1) by (apply (rnd_int 1); [vm_compute; discriminate | reflexivity]).
      apply rnd_int; [vm_compute; discriminate | rewrite E1; reflexivity]. }
    rewrite (component_value _ _ 1) by (try lia; rewrite Em; reflexivity).
    reflexivity.
Qed.

(** The term [x] of a hue at the start or the end of the circle is zero. *)
Lemma x_at_even_hp (hp chroma : Q) (n : Z) :
  hp == inject_Z (2 * n) ->
  fmul rnd chroma (fsub rnd 1 (fabs (fsub rnd (fmod hp 2) 1))) == 0.
Proof.
  intros E. apply fmul_zero_r, one_minus_one, fabs_minus_one.
  rewrite (fmod_compat hp (inject_Z (2 * n)) 2 E). unfold fmod.
  assert (Eq : inject_Z (2 * n) / 2 == inject_Z n).
  { rewrite inject_Z_mult. field. }
  rewrite (trunc_compat _ _ Eq), trunc_inject_Z, inject_Z_mult. ring.
Qed.

(** X15. [from_hsv] closes the circle of hues: the hue 360 gives the color
    of the hue 0, whatever the saturation and the value. *)
Theorem from_hsv_hue_360_is_hue_0 (saturation value : Q) :
  0 <= saturation <= 100 -> 0 <= value <= 100 ->
  from_hsv rnd 360 saturation value = from_hsv rnd 0 saturation value.
Proof.
  intros Hs Hv.
  rewrite !from_hsv_eq by (apply entry_assertions_hold; lra || assumption).
  cbv zeta.
  set (v := fdiv rnd value 100).
  set (chroma := fmul rnd v (fdiv rnd saturation 100)).
  set (m := fsub rnd v chroma).
  pose proof hp_360 as E6. pose proof (fdiv_zero 60) as E0.
  pose proof (x_at_even_hp (fdiv rnd 360 60) chroma 3 E6) as X6.
  pose proof (x_at_even_hp (fdiv rnd 0 60) chroma 0 E0) as X0.
  set (hp6 := fdiv rnd 360 60) in *. set (hp0 := fdiv rnd 0 60) in *.
  set (x6 := fmul rnd chroma (fsub rnd 1 (fabs (fsub rnd (fmod hp6 2) 1)))) in *.
  set (x0 := fmul rnd chroma (fsub rnd 1 (fabs (fsub rnd (fmod hp0 2) 1)))) in *.
  assert (S6 : select (hsv_branches hp6 chroma x6) (0, 0, 0) = (chroma, 0, x6)).
  { unfold hsv_branches. compare. reflexivity. }
  assert (S0 : select (hsv_branches hp0 chroma x0) (0, 0, 0) = (chroma, x0, 0)).
  { unfold hsv_branches. compare. reflexivity. }
  rewrite S6, S0. simpl fst. simpl snd.
  rewrite (component_compat x0 0 m m X0 (Qeq_refl m)), (component_compat x6 0 m m X6 (Qeq_refl m)).
  reflexivity.
Qed.

(** [from_hsv] on valid inputs: the assertions hold, exactly one branch of
    the chain is taken, and a color is returned. *)
Lemma from_hsv_covered (hue saturation value : Q) :
  0 <= hue <= 360 -> 0 <= saturation <= 100 -> 0 <= value <= 100 ->
  entry_assertions hue saturation value = true /\
  (forall chroma x,
     holding (conditions (hsv_branches (fdiv rnd hue 60) chroma x)) = 1%nat) /\
  exists c, from_hsv rnd hue saturation value = Returns c /\ valid c.
Proof.
  intros Hh Hs Hv. split; [now apply entry_assertions_hold|]. split.
  - intros chroma x. apply hsv_one_branch, hp_range, Hh.
  - unfold from_hsv. rewrite entry_assertions_hold by assumption.
    unfold check, and_then.
    match goal with
    | |- context [select ?bs ?i] => destruct (select bs i) as [[cr cg] cb]
    end.
    eexists. split; [reflexivity|].
    unfold valid, color_rgb, color_rgba, m_color, r, g, b, a.
    split; [apply static_cast_u8_is_u8|].
    split; [apply static_cast_u8_is_u8|].
    split; [apply static_cast_u8_is_u8|].
    unfold is_u8, max. lia.
Qed.

(** [from_hsl] at [hue = 360], whatever the saturation and the lightness:
    the assertions hold and no branch of the chain is taken. *)
Lemma from_hsl_360_not_covered (saturation lightness chroma x : Q) :
  0 <= saturation <= 100 -> 0 <= lightness <= 100 ->
  entry_assertions 360 saturation lightness = true /\
  holding (conditions (hsl_branches (fdiv rnd 360 60) chroma x)) = 0%nat /\
  select (hsl_branches (fdiv rnd 360 60) chroma x) (0, 0, 0) = (0, 0, 0).
Proof.
  intros Hs Hl. split.
  - apply entry_assertions_hold; [lra | assumption | assumption].
  - apply hsl_no_branch, hp_360.
Qed.

End Rounded.

(** C5. The color constructed from an [SDL_Color] compares equal to it under
    [operator==]: its four components are the four fields; and converting
    it back gives the [SDL_Color] it was made from. *)
Theorem color_of_SDL_Color_round_trip (c : SDL_Color) :
  eq_color_SDL (color_of_SDL_Color c) c = true /\
  eq_SDL_color c (color_of_SDL_Color c) = true /\
  red (color_of_SDL_Color c) = r c /\
  green (color_of_SDL_Color c) = g c /\
  blue (color_of_SDL_Color c) = b c /\
  alpha (color_of_SDL_Color c) = a c /\
  to_SDL_Color (color_of_SDL_Color c) = c.
Proof.
  destruct c as [cr cg cb ca].
  unfold eq_SDL_color, eq_color_SDL, color_of_SDL_Color, to_SDL_Color,
    red, green, blue, alpha.
  simpl. rewrite !Z.eqb_refl. repeat split.
Qed.

(** X9. [operator==] on colors decides whether the two colors have the same
    four components, that is whether they are the same color; it is the
    comparison of the first with the [SDL_Color] of the second, and
    [operator!=] is its negation. *)
Theorem eq_color_decides_equality (lhs rhs : color) :
  (eq_color lhs rhs = true <-> lhs = rhs) /\
  (neq_color lhs rhs = true <-> lhs <> rhs) /\
  eq_color lhs rhs = eq_color_SDL lhs (to_SDL_Color rhs) /\
  eq_color lhs rhs = eq_color rhs lhs.
Proof.
  destruct lhs as [[r1 g1 b1 a1]], rhs as [[r2 g2 b2 a2]].
  unfold neq_color, eq_color, eq_color_SDL, to_SDL_Color, red, green, blue, alpha.
  simpl.
  assert (E : (r1 =? r2)%Z && (g1 =? g2)%Z && (b1 =? b2)%Z && (a1 =? a2)%Z = true <->
              mk_color (mk_SDL_Color r1 g1 b1 a1) = mk_color (mk_SDL_Color r2 g2 b2 a2)).
  { rewrite !andb_true_iff, !Z.eqb_eq. split.
    - intros [[[-> ->] ->] ->]. reflexivity.
    - intros [= -> -> -> ->]. auto. }
  split; [exact E|]. split; [|split].
  - rewrite negb_true_iff, <- not_true_iff_false. now rewrite E.
  - reflexivity.
  - now rewrite (Z.eqb_sym r1), (Z.eqb_sym g1), (Z.eqb_sym b1), (Z.eqb_sym a1).
Qed.

(** X10. A message box color has no alpha: the color made from one has the
    alpha 255, converting that color back gives the message box color it
    was made from, and converting a color to a message box color and back
    keeps red, green and blue and resets alpha to 255.  The comparison of a
    color with a message box color does not look at alpha. *)
Theorem MessageBoxColor_round_trip (c : color) (m : SDL_MessageBoxColor) (alpha' : Z) :
  to_SDL_MessageBoxColor (color_of_SDL_MessageBoxColor m) = m /\
  alpha (color_of_SDL_MessageBoxColor m) = 255%Z /\
  color_of_SDL_MessageBoxColor (to_SDL_MessageBoxColor c) = with_alpha c 255 /\
  eq_color_MessageBox (color_of_SDL_MessageBoxColor m) m = true /\
  eq_color_MessageBox (with_alpha c alpha') m = eq_color_MessageBox c m /\
  (eq_color_MessageBox c m = true <-> to_SDL_MessageBoxColor c = m).
Proof.
  destruct c as [[cr cg cb ca]], m as [xr xg xb].
  unfold to_SDL_MessageBoxColor, color_of_SDL_MessageBoxColor, with_alpha,
    eq_color_MessageBox, color_rgba, red, green, blue, alpha, max.
  simpl. rewrite !Z.eqb_refl. repeat split.
  - rewrite !andb_true_iff, !Z.eqb_eq. intros [[-> ->] ->]. reflexivity.
  - intros [= -> -> ->]. now rewrite !Z.eqb_refl.
Qed.

(** X11. The setters and [with_alpha] change the one component they name
    and no other; a component that is set twice has the value set last,
    setters of different components commute, and setting a component to
    the value it has changes nothing. *)
Theorem setters_change_one_component (c : color) (v w : Z) :
  (red (set_red c v) = v /\ green (set_red c v) = green c /\
   blue (set_red c v) = blue c /\ alpha (set_red c v) = alpha c) /\
  (green (set_green c v) = v /\ red (set_green c v) = red c /\
   blue (set_green c v) = blue c /\ alpha (set_green c v) = alpha c) /\
  (blue (set_blue c v) = v /\ red (set_blue c v) = red c /\
   green (set_blue c v) = green c /\ alpha (set_blue c v) = alpha c) /\
  (alpha (set_alpha c v) = v /\ red (set_alpha c v) = red c /\
   green (set_alpha c v) = green c /\ blue (set_alpha c v) = blue c) /\
  with_alpha c v = set_alpha c v /\
  set_red (set_red c v) w = set_red c w /\
  set_alpha (set_alpha c v) w = set_alpha c w /\
  set_red (set_green c v) w = set_green (set_red c w) v /\
  set_blue (set_alpha c v) w = set_alpha (set_blue c w) v /\
  set_red c (red c) = c /\ set_alpha c (alpha c) = c.
Proof. destruct c as [[cr cg cb ca]]. repeat split. Qed.

(** The entry assertions hold exactly within the documented ranges. *)
Lemma entry_assertions_iff (hue saturation value : Q) :
  entry_assertions hue saturation value = true <->
  0 <= hue <= 360 /\ 0 <= saturation <= 100 /\ 0 <= value <= 100.
Proof.
  unfold entry_assertions, fle. rewrite !andb_true_iff, !Qle_bool_iff. tauto.
Qed.

(** X17. [from_hsv] and [from_hsl] stop at an assertion exactly when the
    hue is outside [0, 360] or one of the two percentages is outside
    [0, 100]; otherwise each returns an opaque color, and neither ever
    throws. *)
Theorem conversions_assert_their_ranges (rnd : Q -> Q) (hue saturation value : Q) :
  (from_hsv rnd hue saturation value = AssertionFailed <->
     ~ (0 <= hue <= 360 /\ 0 <= saturation <= 100 /\ 0 <= value <= 100)) /\
  (from_hsl rnd hue saturation value = AssertionFailed <->
     ~ (0 <= hue <= 360 /\ 0 <= saturation <= 100 /\ 0 <= value <= 100)) /\
  (forall c, from_hsv rnd hue saturation value = Returns c -> valid c /\ alpha c = max) /\
  (forall c, from_hsl rnd hue saturation value = Returns c -> valid c /\ alpha c = max) /\
  (forall e, from_hsv rnd hue saturation value <> Throws e /\
             from_hsl rnd hue saturation value <> Throws e).
Proof.
  pose proof (entry_assertions_iff hue saturation value) as Hiff.
  destruct (entry_assertions hue saturation value) eqn:E.
  - rewrite (from_hsv_eq rnd _ _ _ E), (from_hsl_eq rnd _ _ _ E). cbv zeta.
    assert (Hin : 0 <= hue <= 360 /\ 0 <= saturation <= 100 /\ 0 <= value <= 100)
      by now apply Hiff.
    split; [|split; [|split; [|split]]].
    + split; [discriminate | tauto].
    + split; [discriminate | tauto].
    + intros c [= <-]. split; [|reflexivity].
      unfold valid, color_rgb, color_rgba. simpl.
      split; [|split; [|split]]; try apply static_cast_u8_is_u8. unfold is_u8, max. lia.
    + intros c [= <-]. split; [|reflexivity].
      unfold valid, color_rgb, color_rgba. simpl.
      split; [|split; [|split]]; try apply static_cast_u8_is_u8. unfold is_u8, max. lia.
    + intros e. split; discriminate.
  - assert (Hout : ~ (0 <= hue <= 360 /\ 0 <= saturation <= 100 /\ 0 <= value <= 100)).
    { intros Hin. apply Hiff in Hin. discriminate. }
    unfold from_hsv, from_hsl. rewrite E. simpl.
    split; [|split; [|split; [|split]]]; try tauto; try discriminate.
    intros e. split; discriminate.
Qed.

(** X18. [blend] stops at an assertion exactly when the bias is outside
    [0, 1], and never throws. *)
Theorem blend_asserts_bias_range (rnd : Q -> Q) (a b : color) (bias : Q) :
  (blend rnd a b bias = AssertionFailed <-> ~ 0 <= bias <= 1) /\
  (forall e, blend rnd a b bias <> Throws e).
Proof.
  unfold blend, fle.
  destruct (Qle_bool 0 bias) eqn:E0; [destruct (Qle_bool bias 1) eqn:E1|]; simpl.
  - apply Qle_bool_iff in E0, E1. split; [split; [discriminate | tauto] | discriminate].
  - split; [|discriminate]. split; [|reflexivity]. intros _ [_ H].
    apply Qle_bool_iff in H. congruence.
  - split; [|discriminate]. split; [|reflexivity]. intros _ [H _].
    apply Qle_bool_iff in H. congruence.
Qed.

(** The assertions of the unit tests on [from_hsv], [from_hsl] and [blend],
    run with the rounding of binary64. *)
Example test_FromHSV :
  from_hsv binary64 0 0 0 = Returns black /\
  from_hsv binary64 359 0 0 = Returns black /\
  from_hsv binary64 0 100 0 = Returns black /\
  from_hsv binary64 0 0 100 = Returns white /\
  from_hsv binary64 0 100 100 = Returns red_ /\
  from_hsv binary64 120 100 100 = Returns lime /\
  from_hsv binary64 240 100 100 = Returns blue_ /\
  from_hsv binary64 280 (binary64 (755 # 10)) 80 = Returns dark_orchid /\
  from_hsv binary64 174 (binary64 (714 # 10)) (binary64 (878 # 10)) = Returns turquoise /\
  from_hsv binary64 348 (binary64 (909 # 10)) (binary64 (863 # 10)) = Returns crimson /\
  from_hsv binary64 351 (binary64 (286 # 10)) 100 = Returns light_pink /\
  from_hsv binary64 300 (binary64 (116 # 10)) (binary64 (847 # 10)) = Returns thistle /\
  from_hsv binary64 359 100 100 = Returns (color_rgb 255 0 4).
Proof. vm_compute. repeat split. Qed.

Example test_FromHSL :
  from_hsl binary64 0 0 0 = Returns black /\
  from_hsl binary64 359 0 0 = Returns black /\
  from_hsl binary64 0 100 0 = Returns black /\
  from_hsl binary64 0 0 100 = Returns white /\
  from_hsl binary64 0 100 50 = Returns red_ /\
  from_hsl binary64 120 100 50 = Returns lime /\
  from_hsl binary64 240 100 50 = Returns blue_ /\
  from_hsl binary64 280 (binary64 (606 # 10)) (binary64 (498 # 10)) = Returns dark_orchid /\
  from_hsl binary64 174 (binary64 (721 # 10)) (binary64 (565 # 10)) = Returns turquoise /\
  from_hsl binary64 348 (binary64 (833 # 10)) (binary64 (471 # 10)) = Returns crimson /\
  from_hsl binary64 351 100 (binary64 (857 # 10)) = Returns light_pink /\
  from_hsl binary64 300 (binary64 (243 # 10)) (binary64 (798 # 10)) = Returns thistle /\
  from_hsl binary64 359 100 100 = Returns white.
Proof. vm_compute. repeat split. Qed.

Example test_Blend :
  blend binary64 white black (1 # 2) = Returns gray /\
  blend binary64 white black 0 = Returns white /\
  blend binary64 white black 1 = Returns black /\
  blend binary64 light_pink crimson (binary64 (4 # 10)) = Returns (color_rgb 241 117 140).
Proof. vm_compute. repeat split. Qed.

(** C2, at the hue 360 that the entry assertions accept.  [from_hsv] takes
    its sixth branch and returns red, as it does for the hue 0.  [from_hsl]
    passes its assertions with [hp = 6], none of the six conditions of its
    chain holds, red, green and blue stay at zero, and the color returned
    is black, where the hue 0 gives red. *)
Theorem from_hsl_hue_360_takes_no_branch :
  entry_assertions 360 100 50 = true /\
  fdiv binary64 360 60 = 6 /\
  conditions (hsl_branches (fdiv binary64 360 60) 1 0)
    = [false; false; false; false; false; false] /\
  conditions (hsv_branches (fdiv binary64 360 60) 1 0)
    = [false; false; false; false; false; true] /\
  from_hsl binary64 360 100 50 = Returns black /\
  from_hsl binary64 0 100 50 = Returns red_ /\
  from_hsv binary64 360 100 100 = Returns red_ /\
  from_hsv binary64 0 100 100 = Returns red_.
Proof. vm_compute. repeat split. Qed.

Lemma from_hsv_value_zero_is_black_witness :
  rounding binary64 /\ 0 <= 120 <= 360 /\ 0 <= 50 <= 100 /\
  from_hsv binary64 120 50 0 = Returns black.
Proof.
  assert (Hh : 0 <= 120 <= 360) by lra. assert (Hs : 0 <= 50 <= 100) by lra.
  split; [exact rounding_binary64|]. split; [exact Hh|]. split; [exact Hs|].
  exact (from_hsv_value_zero_is_black binary64 rounding_binary64 120 50 Hh Hs).
Defined.

Lemma from_hsl_lightness_extremes_witness :
  rounding binary64 /\ 0 <= 360 <= 360 /\ 0 <= 50 <= 100 /\
  from_hsl binary64 360 50 0 = Returns black /\
  from_hsl binary64 360 50 100 = Returns white.
Proof.
  assert (Hh : 0 <= 360 <= 360) by lra. assert (Hs : 0 <= 50 <= 100) by lra.
  split; [exact rounding_binary64|]. split; [exact Hh|]. split; [exact Hs|].
  exact (from_hsl_lightness_extremes binary64 rounding_binary64 360 50 Hh Hs).
Defined.

Lemma saturation_zero_is_gray_witness :
  rounding binary64 /\ 0 <= 200 <= 360 /\ 0 <= 50 <= 100 /\
  (exists k, is_u8 k /\ from_hsv binary64 200 0 50 = Returns (color_rgb k k k)) /\
  (exists k, is_u8 k /\ from_hsl binary64 200 0 50 = Returns (color_rgb k k k)) /\
  from_hsv binary64 200 0 100 = Returns white.
Proof.
  assert (Hh : 0 <= 200 <= 360) by lra. assert (Hv : 0 <= 50 <= 100) by lra.
  split; [exact rounding_binary64|]. split; [exact Hh|]. split; [exact Hv|].
  exact (saturation_zero_is_gray binary64 rounding_binary64 200 50 Hh Hv).
Defined.

Lemma from_hsv_hue_360_is_hue_0_witness :
  rounding binary64 /\ 0 <= 70 <= 100 /\ 0 <= 30 <= 100 /\
  from_hsv binary64 360 70 30 = from_hsv binary64 0 70 30.
Proof.
  assert (Hs : 0 <= 70 <= 100) by lra. assert (Hv : 0 <= 30 <= 100) by lra.
  split; [exact rounding_binary64|]. split; [exact Hs|]. split; [exact Hv|].
  exact (from_hsv_hue_360_is_hue_0 binary64 rounding_binary64 70 30 Hs Hv).
Defined.

Lemma blend_stays_between_witness :
  rounding binary64 /\ valid light_pink /\ valid crimson /\ 0 <= 1 # 3 <= 1 /\
  exists c,
    blend binary64 light_pink crimson (1 # 3) = Returns c /\ valid c /\
    (Z.min (red light_pink) (red crimson) <= red c
       <= Z.max (red light_pink) (red crimson))%Z /\
    (Z.min (green light_pink) (green crimson) <= green c
       <= Z.max (green light_pink) (green crimson))%Z /\
    (Z.min (blue light_pink) (blue crimson) <= blue c
       <= Z.max (blue light_pink) (blue crimson))%Z /\
    (Z.min (alpha light_pink) (alpha crimson) <= alpha c
       <= Z.max (alpha light_pink) (alpha crimson))%Z.
Proof.
  assert (Hp : valid light_pink) by (unfold valid, is_u8, max; cbn; unfold max; lia).
  assert (Hc : valid crimson) by (unfold valid, is_u8, max; cbn; unfold max; lia).
  assert (Hb : 0 <= 1 # 3 <= 1) by lra.
  split; [exact rounding_binary64|]. split; [exact Hp|]. split; [exact Hc|].
  split; [exact Hb|].
  exact (blend_stays_between binary64 rounding_binary64 light_pink crimson (1 # 3) Hp Hc Hb).
Defined.

(** Blending light pink and crimson with the rounding of binary64. *)
Lemma blend_endpoints_and_same_witness :
  rounding binary64 /\ valid light_pink /\ valid crimson /\
  blend binary64 light_pink crimson 0 = Returns light_pink /\
  blend binary64 light_pink crimson 1 = Returns crimson /\
  forall bias, 0 <= bias <= 1 ->
    blend binary64 light_pink light_pink bias = Returns light_pink.
Proof.
  assert (Hp : valid light_pink) by (unfold valid, is_u8, max; cbn; unfold max; lia).
  assert (Hc : valid crimson) by (unfold valid, is_u8, max; cbn; unfold max; lia).
  split; [exact rounding_binary64|]. split; [exact Hp|]. split; [exact Hc|].
  exact (blend_endpoints_and_same binary64 rounding_binary64 light_pink crimson Hp Hc).
Defined.

End ColorFacts.

(** ** The font cache *)

Module FontCacheFacts.

Import FontCache.

Open Scope Z_scope.

Lemma code_points_nil (begin end_ : Z) : end_ <= begin -> code_points begin end_ = [].
Proof.
  intros H. unfold code_points. replace (Z.to_nat (end_ - begin)) with 0%nat by lia.
  reflexivity.
Qed.

Lemma code_points_cons (begin end_ : Z) :
  begin < end_ -> code_points begin end_ = begin :: code_points (begin + 1) end_.
Proof.
  intros H. unfold code_points.
  replace (Z.to_nat (end_ - begin)) with (S (Z.to_nat (end_ - (begin + 1)))) by lia.
  simpl seq. simpl map. f_equal; [lia|].
  rewrite <- seq_shift, map_map. apply map_ext. intros i. lia.
Qed.

Lemma in_code_points (begin end_ ch : Z) :
  In ch (code_points begin end_) <-> begin <= ch < end_.
Proof.
  unfold code_points. rewrite in_map_iff. split.
  - intros (i & <- & Hi). apply in_seq in Hi. lia.
  - intros H. exists (Z.to_nat (ch - begin)). split; [lia|]. apply in_seq. lia.
Qed.


Section Cache.

Variable texture : Type.
Variable Renderer : Type.
Variable get_color : Renderer -> Color.color.
Variable render : Renderer -> rendering -> font -> outcome texture.
Variable TTF_RenderGlyph_Blended : Z -> unicode -> Color.SDL_Color -> Z.
Variable texture_ctor : Renderer -> surface -> outcome texture.

Abbreviation font_cache := (font_cache texture).
Abbreviation add_glyph := (add_glyph get_color TTF_RenderGlyph_Blended texture_ctor).
Abbreviation add_glyph_each :=
  (add_glyph_each get_color TTF_RenderGlyph_Blended texture_ctor).
Abbreviation add_range_loop :=
  (add_range_loop get_color TTF_RenderGlyph_Blended texture_ctor).
Abbreviation add_range := (add_range get_color TTF_RenderGlyph_Blended texture_ctor).
Abbreviation create_glyph_texture :=
  (create_glyph_texture get_color TTF_RenderGlyph_Blended texture_ctor).
Abbreviation store_rendered := (store_rendered render).

Abbreviation add_basic_latin :=
  (add_basic_latin get_color TTF_RenderGlyph_Blended texture_ctor).
Abbreviation add_latin1_supplement :=
  (add_latin1_supplement get_color TTF_RenderGlyph_Blended texture_ctor).
Abbreviation add_latin1 := (add_latin1 get_color TTF_RenderGlyph_Blended texture_ctor).

(** The loop, run long enough, calls [add_glyph] on the code points from
    [ch] up to [end_], one after the other. *)
Lemma add_range_loop_spec (renderer : Renderer) (n : nat) :
  forall (ch end_ : unicode) (this : font_cache),
    is_unicode ch -> is_unicode end_ ->
    (Z.to_nat (end_ - ch) <= n)%nat ->
    add_range_loop n renderer ch end_ this =
      Some (add_glyph_each renderer (code_points ch end_) this).
Proof.
  induction n as [|n IH]; intros ch end_ this Hch Hend Hn.
  - simpl. destruct (Z.ltb_spec ch end_) as [Hlt|Hge]; [lia|].
    now rewrite code_points_nil.
  - simpl. destruct (Z.ltb_spec ch end_) as [Hlt|Hge].
    + rewrite (code_points_cons _ _ Hlt). simpl.
      destruct (add_glyph renderer ch this) as [this'| |]; simpl; try reflexivity.
      unfold is_unicode in *.
      replace (u16 (ch + 1)) with (ch + 1) by (unfold u16; rewrite Z.mod_small; lia).
      apply IH; unfold is_unicode; lia.
    + now rewrite code_points_nil.
Qed.

Lemma add_range_spec (renderer : Renderer) (begin end_ : unicode) (this : font_cache) :
  is_unicode begin -> is_unicode end_ ->
  add_range renderer begin end_ this =
    Some (add_glyph_each renderer (code_points begin end_) this).
Proof.
  intros Hb He. unfold FontCache.add_range. apply add_range_loop_spec; try assumption.
  unfold code_units, is_unicode in *. lia.
Qed.

Lemma add_glyph_skips (renderer : Renderer) (glyph : unicode) (this : font_cache) :
  has this glyph = true \/ is_glyph_provided (m_font this) glyph = false ->
  add_glyph renderer glyph this = Returns this.
Proof.
  intros H. unfold FontCache.add_glyph.
  destruct H as [-> | ->]; [reflexivity | now rewrite orb_true_r].
Qed.

Lemma has_false (this : font_cache) (glyph : unicode) :
  has this glyph = false -> m_glyphs this !! glyph = None.
Proof.
  unfold has. destruct (m_glyphs this !! glyph); [discriminate | reflexivity].
Qed.



Lemma has_true (this : font_cache) (glyph : unicode) :
  has this glyph = true <-> is_Some (m_glyphs this !! glyph).
Proof.
  unfold has. destruct (m_glyphs this !! glyph); split; intros H;
    try reflexivity; try discriminate; eauto. destruct H; discriminate.
Qed.

(** One call of [add_glyph] that returns. *)
Lemma add_glyph_returns (renderer : Renderer) (glyph : unicode) (c c' : font_cache) :
  add_glyph renderer glyph c = Returns c' ->
  grown (fun g => g = glyph) c c' /\
  (is_glyph_provided (m_font c) glyph = true -> has c' glyph = true).
Proof.
  unfold FontCache.add_glyph.
  destruct (has c glyph) eqn:Hhas; simpl.
  - intros [= <-]. split; [|auto]. repeat split. intros g. now left.
  - destruct (is_glyph_provided (m_font c) glyph) eqn:Hprov; simpl.
    + destruct (create_glyph_texture c renderer glyph) as [tex| |]; simpl; try discriminate.
      destruct (get_metrics (m_font c) glyph) as [mtr|]; simpl; try discriminate.
      intros [= <-]. pose proof (has_false _ _ Hhas) as Hnone.
      unfold emplace. rewrite Hnone. split.
      * repeat split; simpl. intros g. destruct (Z.eq_dec g glyph) as [->|Hne].
        -- right. rewrite lookup_insert_eq. repeat split; eauto.
        -- left. now rewrite lookup_insert_ne by congruence.
      * intros _. unfold has. simpl. now rewrite lookup_insert_eq.
    + intros [= <-]. split; [|discriminate]. repeat split. intros g. now left.
Qed.

Lemma grown_trans (P Q : unicode -> Prop) (c1 c2 c3 : font_cache) :
  grown P c1 c2 -> grown Q c2 c3 -> grown (fun g => P g \/ Q g) c1 c3.
Proof.
  intros (F1 & S1 & G1) (F2 & S2 & G2). repeat split; try congruence.
  intros g. destruct (G1 g) as [E1|(HP & N1 & I1 & P1)], (G2 g) as [E2|(HQ & N2 & I2 & P2)].
  - left. congruence.
  - right. rewrite <- E1. rewrite <- F1. repeat split; auto.
  - right. rewrite E2. repeat split; auto.
  - rewrite N2 in I1. destruct I1; discriminate.
Qed.

(** The calls of [add_glyph] on a list of code points, when they all
    return. *)
Lemma add_glyph_each_returns (renderer : Renderer) (l : list unicode) :
  forall c c' : font_cache,
    add_glyph_each renderer l c = Returns c' ->
    grown (fun g => In g l) c c' /\
    (forall ch, In ch l -> is_glyph_provided (m_font c) ch = true -> has c' ch = true).
Proof.
  induction l as [|ch l IH]; intros c c'; simpl.
  - intros [= <-]. split; [|contradiction]. repeat split. intros g. now left.
  - destruct (add_glyph renderer ch c) as [c1| |] eqn:E1; simpl; try discriminate.
    intros E2. destruct (add_glyph_returns _ _ _ _ E1) as [G1 H1].
    destruct (IH _ _ E2) as [G2 H2]. split.
    + pose proof (grown_trans _ _ _ _ _ G1 G2) as (F & S & G).
      repeat split; auto. intros g. destruct (G g) as [E|([->|Hin] & R)]; auto.
    + intros g [<-|Hin] Hp.
      * specialize (H1 Hp). apply has_true in H1. apply has_true.
        destruct G2 as (_ & _ & G2). destruct (G2 ch) as [E|(_ & N & _)].
        -- now rewrite E.
        -- rewrite N in H1. destruct H1; discriminate.
      * apply H2; [exact Hin|]. destruct G1 as (F1 & _). now rewrite F1.
Qed.


(** Whether a glyph can be rendered depends on the font of the cache only. *)
Lemma create_glyph_texture_font (renderer : Renderer) (glyph : unicode)
    (c1 c2 : font_cache) :
  m_font c1 = m_font c2 ->
  create_glyph_texture c1 renderer glyph = create_glyph_texture c2 renderer glyph.
Proof. intros E. unfold FontCache.create_glyph_texture. now rewrite E. Qed.

(** [add_glyph] returns when the glyph can be rendered and measured. *)
Lemma add_glyph_total (renderer : Renderer) (glyph : unicode) (c : font_cache) :
  (is_glyph_provided (m_font c) glyph = true ->
   (exists tex, create_glyph_texture c renderer glyph = Returns tex) /\
   (exists mtr, get_metrics (m_font c) glyph = Some mtr)) ->
  exists c', add_glyph renderer glyph c = Returns c'.
Proof.
  intros H. unfold FontCache.add_glyph.
  destruct (has c glyph); simpl; [eauto|].
  destruct (is_glyph_provided (m_font c) glyph); simpl; [|eauto].
  destruct (H eq_refl) as [[tex ->] [mtr ->]]. simpl. eauto.
Qed.

Lemma add_glyph_each_total (renderer : Renderer) (l : list unicode) :
  forall c : font_cache,
    (forall ch, In ch l -> is_glyph_provided (m_font c) ch = true ->
       (exists tex, create_glyph_texture c renderer ch = Returns tex) /\
       (exists mtr, get_metrics (m_font c) ch = Some mtr)) ->
    exists c', add_glyph_each renderer l c = Returns c'.
Proof.
  induction l as [|ch l IH]; intros c H; simpl; [eauto|].
  destruct (add_glyph_total renderer ch c) as [c1 E1].
  { apply H. now left. }
  rewrite E1. simpl. apply IH. intros g Hin Hp.
  destruct (add_glyph_returns _ _ _ _ E1) as [(F & _) _].
  rewrite F in *. rewrite (create_glyph_texture_font renderer g c1 c F).
  apply H; [now right | exact Hp].
Qed.

(** X3. When every glyph of the range that the font provides can be
    rendered and measured, [add_range] returns a cache in which each of
    them is cached.  The cache it returns has the same font and the same
    stored strings, keeps every glyph entry it had with its data, has no
    new entry outside the range, and no entry for a glyph that the font
    does not provide. *)
Theorem add_range_caches_the_provided_glyphs (renderer : Renderer)
    (begin end_ : unicode) (this : font_cache) :
  is_unicode begin -> is_unicode end_ ->
  (forall ch, begin <= ch < end_ ->
     is_glyph_provided (m_font this) ch = true ->
     (exists tex, create_glyph_texture this renderer ch = Returns tex) /\
     (exists mtr, get_metrics (m_font this) ch = Some mtr)) ->
  exists this',
    add_range renderer begin end_ this = Some (Returns this') /\
    m_font this' = m_font this /\
    m_strings this' = m_strings this /\
    (forall ch, begin <= ch < end_ ->
       is_glyph_provided (m_font this) ch = true -> has this' ch = true) /\
    (forall g d, m_glyphs this !! g = Some d -> m_glyphs this' !! g = Some d) /\
    (forall g, ~ begin <= g < end_ -> m_glyphs this' !! g = m_glyphs this !! g) /\
    (forall g, has this' g = true ->
       has this g = true \/
       (begin <= g < end_ /\ is_glyph_provided (m_font this) g = true)).
Proof.
  intros Hb He Hr. rewrite add_range_spec by assumption.
  destruct (add_glyph_each_total renderer (code_points begin end_) this) as [c' E].
  { intros ch Hin. apply Hr. now apply in_code_points. }
  exists c'. split; [now rewrite E|].
  destruct (add_glyph_each_returns _ _ _ _ E) as [(F & S & G) P].
  split; [exact F|]. split; [exact S|]. split; [|split; [|split]].
  - intros ch Hch. apply P. now apply in_code_points.
  - intros g d Hg. destruct (G g) as [->|(_ & N & _)]; [exact Hg | congruence].
  - intros g Hg. destruct (G g) as [->|(Hin & _)]; [reflexivity|].
    apply in_code_points in Hin. contradiction.
  - intros g Hg. apply has_true in Hg. destruct (G g) as [Eg|(Hin & _ & _ & Hp)].
    + left. apply has_true. now rewrite <- Eg.
    + right. split; [now apply in_code_points | exact Hp].
Qed.

(** X4. [add_range] is idempotent: on the cache that a first call returned,
    a second call with the same range returns that cache as it is. *)
Theorem add_range_twice (renderer : Renderer) (begin end_ : unicode)
    (this this' : font_cache) :
  is_unicode begin -> is_unicode end_ ->
  add_range renderer begin end_ this = Some (Returns this') ->
  add_range renderer begin end_ this' = Some (Returns this').
Proof.
  intros Hb He. rewrite !add_range_spec by assumption. intros [= E].
  destruct (add_glyph_each_returns _ _ _ _ E) as [(F & _) P]. f_equal.
  assert (Hskip : forall l, (forall ch, In ch l -> In ch (code_points begin end_)) ->
                            add_glyph_each renderer l this' = Returns this').
  { induction l as [|ch l IH]; intros Hl; [reflexivity|]. simpl.
    rewrite add_glyph_skips.
    - simpl. apply IH. intros g Hg. apply Hl. now right.
    - destruct (is_glyph_provided (m_font this') ch) eqn:Hp; [left | now right].
      apply P; [apply Hl; now left | now rewrite <- F]. }
  apply Hskip. auto.
Qed.

(** The loop does nothing when it starts at or after its end. *)
Lemma add_range_loop_done (renderer : Renderer) (n : nat) (ch end_ : unicode)
    (this : font_cache) :
  end_ <= ch ->
  FontCache.add_range_loop get_color TTF_RenderGlyph_Blended texture_ctor
    n renderer ch end_ this = Some (Returns this).
Proof.
  intros H. destruct n; simpl; destruct (Z.ltb_spec ch end_); try lia; reflexivity.
Qed.

(** X5. [add_range] on an empty or reversed range, [end_ <= begin], returns
    the cache as it is, and renders nothing: not even [add_glyph] is
    called. *)
Theorem add_range_of_empty_range (renderer : Renderer) (begin end_ : unicode)
    (this : font_cache) :
  end_ <= begin ->
  add_range renderer begin end_ this = Some (Returns this) /\
  code_points begin end_ = [].
Proof.
  intros H. split; [apply add_range_loop_done, H | apply code_points_nil, H].
Qed.

(** X6. [add_latin1] is [add_basic_latin] followed by
    [add_latin1_supplement]: when every printable Latin-1 character that
    the font provides can be rendered and measured, it returns a cache in
    which each of them is cached, and which differs from the old cache in
    entries for printable Latin-1 characters only. *)
Theorem add_latin1_caches_printable_latin1 (renderer : Renderer) (this : font_cache) :
  (forall ch, printable_latin1 ch ->
     is_glyph_provided (m_font this) ch = true ->
     (exists tex, create_glyph_texture this renderer ch = Returns tex) /\
     (exists mtr, get_metrics (m_font this) ch = Some mtr)) ->
  exists this',
    add_latin1 renderer this = Some (Returns this') /\
    (forall ch, printable_latin1 ch ->
       is_glyph_provided (m_font this) ch = true -> has this' ch = true) /\
    (forall g d, m_glyphs this !! g = Some d -> m_glyphs this' !! g = Some d) /\
    (forall g, ~ printable_latin1 g -> m_glyphs this' !! g = m_glyphs this !! g) /\
    m_strings this' = m_strings this /\ m_font this' = m_font this.
Proof.
  intros Hr. unfold FontCache.add_latin1, FontCache.add_basic_latin,
    FontCache.add_latin1_supplement.
  assert (U32 : is_unicode 32) by (unfold is_unicode; lia).
  assert (U127 : is_unicode 127) by (unfold is_unicode; lia).
  assert (U160 : is_unicode 160) by (unfold is_unicode; lia).
  assert (U256 : is_unicode 256) by (unfold is_unicode; lia).
  destruct (add_range_caches_the_provided_glyphs renderer 32 127 this U32 U127)
    as (c1 & E1 & F1 & S1 & P1 & K1 & O1 & _).
  { intros ch Hch. apply Hr. now left. }
  rewrite E1.
  destruct (add_range_caches_the_provided_glyphs renderer 160 256 c1 U160 U256)
    as (c2 & E2 & F2 & S2 & P2 & K2 & O2 & _).
  { intros ch Hch. rewrite F1, (create_glyph_texture_font renderer ch c1 this F1).
    apply Hr. now right. }
  rewrite E2. exists c2. split; [reflexivity|].
  split; [|split; [|split; [|split]]].
  - intros ch [Hch|Hch] Hp.
    + apply has_true. specialize (P1 ch Hch Hp). apply has_true in P1.
      destruct P1 as [d Hd]. rewrite (K2 _ _ Hd). eauto.
    + apply P2; [exact Hch | now rewrite F1].
  - intros g d Hg. apply K2, K1, Hg.
  - intros g Hg. rewrite O2, O1; [reflexivity | |]; intros H; apply Hg;
      [now left | now right].
  - congruence.
  - congruence.
Qed.

(** X7. [at] returns the data of a glyph exactly when [has] reports it, and
    [get_stored] the texture of an identifier exactly when [has_stored]
    reports it; on a glyph or identifier that is not there both throw
    [out_of_range].  A cache that was just constructed has neither glyphs
    nor strings. *)
Theorem lookups_agree_with_has (this : font_cache) (glyph : unicode) (id : hash_id)
    (f : font) :
  (has this glyph = true <-> exists d, at_ this glyph = Returns d) /\
  (has this glyph = false <-> at_ this glyph = Throws out_of_range) /\
  (has_stored this id = true <-> exists tex, get_stored this id = Returns tex) /\
  (has_stored this id = false <-> get_stored this id = Throws out_of_range) /\
  has (font_cache_ctor f : font_cache) glyph = false /\
  has_stored (font_cache_ctor f : font_cache) id = false.
Proof.
  unfold has, at_, has_stored, get_stored, map_at, font_cache_ctor. simpl.
  rewrite !lookup_empty.
  destruct (m_glyphs this !! glyph), (m_strings this !! id);
    repeat split; intros; eauto; try discriminate;
    try (match goal with H : exists _, _ |- _ => destruct H; discriminate end).
Qed.

(** X8. How [add_glyph] fails on a glyph that is provided and not cached:
    with [centurion_exception] when the native rendering returns no
    surface, with the exception of the texture constructor when that
    throws, and with [bad_optional_access] when the texture is there and
    the font has no metrics for the glyph. *)
Theorem add_glyph_failures (renderer : Renderer) (glyph : unicode) (this : font_cache) :
  has this glyph = false ->
  is_glyph_provided (m_font this) glyph = true ->
  let ptr := TTF_RenderGlyph_Blended (get (m_font this)) glyph
               (Color.to_SDL_Color (get_color renderer)) in
  (ptr = 0 -> add_glyph renderer glyph this = Throws centurion_exception) /\
  (forall e, ptr <> 0 -> texture_ctor renderer (mk_surface ptr) = Throws e ->
     add_glyph renderer glyph this = Throws e) /\
  (forall tex, ptr <> 0 -> texture_ctor renderer (mk_surface ptr) = Returns tex ->
     get_metrics (m_font this) glyph = None ->
     add_glyph renderer glyph this = Throws bad_optional_access).
Proof.
  intros Hhas Hprov ptr. unfold FontCache.add_glyph, FontCache.create_glyph_texture.
  rewrite Hhas, Hprov. simpl. fold ptr. unfold surface_ctor.
  split; [|split].
  - intros ->. reflexivity.
  - intros e Hp He. destruct (Z.eqb_spec ptr 0); [contradiction|]. simpl. now rewrite He.
  - intros tex Hp Ht Hm. destruct (Z.eqb_spec ptr 0); [contradiction|]. simpl.
    rewrite Ht. simpl. now rewrite Hm.
Qed.




(** What [store] does with a texture that was rendered. *)
Lemma store_rendered_overwrites (what : rendering) (id : hash_id)
    (renderer : Renderer) (this : font_cache) (tex : texture) :
  render renderer what (get_font this) = Returns tex ->
  exists this',
    store_rendered id what renderer this = Returns this' /\
    has_stored this' id = true /\
    get_stored this' id = Returns tex /\
    (forall other, other <> id ->
       m_strings this' !! other = m_strings this !! other /\
       has_stored this' other = has_stored this other /\
       get_stored this' other = get_stored this other) /\
    m_glyphs this' = m_glyphs this /\
    m_font this' = m_font this.
Proof.
  intros Hr. unfold FontCache.store_rendered. rewrite Hr. simpl.
  eexists. split; [reflexivity|].
  unfold has_stored, get_stored, map_at, store. simpl.
  rewrite lookup_insert_eq. repeat split; try reflexivity.
  all: rewrite lookup_insert_ne by congruence; reflexivity.
Qed.

(** C6. Storing a string texture under an identifier with any of the
    twelve store functions overwrites what was stored under it: when the
    renderer returns the texture of the string, the call returns, and
    afterwards [has_stored] holds of the identifier and [get_stored]
    returns the texture that was just rendered, whatever the cache held
    before; the textures stored under other identifiers and all the glyph
    data are as before.  [stored] is what the call of a store function
    returns, [what] the rendering it asks the renderer for. *)
Theorem store_overwrites_only_its_id (id : hash_id) (renderer : Renderer)
    (this : font_cache) (str : string) (ustr : list unicode) (wrap : Z)
    (background : Color.color) (what : rendering) (stored : outcome font_cache)
    (tex : texture) :
  In (what, stored)
    [ (blended_utf8 str,
         store_blended_utf8 _ _ render id str renderer this);
      (blended_wrapped_utf8 str wrap,
         store_blended_wrapped_utf8 _ _ render id str renderer wrap this);
      (shaded_utf8 str background,
         store_shaded_utf8 _ _ render id str renderer background this);
      (solid_utf8 str,
         store_solid_utf8 _ _ render id str renderer this);
      (blended_latin1 str,
         store_blended_latin1 _ _ render id str renderer this);
      (blended_wrapped_latin1 str wrap,
         store_blended_wrapped_latin1 _ _ render id str renderer wrap this);
      (shaded_latin1 str background,
         store_shaded_latin1 _ _ render id str renderer background this);
      (solid_latin1 str,
         store_solid_latin1 _ _ render id str renderer this);
      (blended_unicode ustr,
         store_blended_unicode _ _ render id ustr renderer this);
      (blended_wrapped_unicode ustr wrap,
         store_blended_wrapped_unicode _ _ render id ustr renderer wrap this);
      (shaded_unicode ustr background,
         store_shaded_unicode _ _ render id ustr renderer background this);
      (solid_unicode ustr,
         store_solid_unicode _ _ render id ustr renderer this) ] ->
  render renderer what (get_font this) = Returns tex ->
  exists this',
    stored = Returns this' /\
    has_stored this' id = true /\
    get_stored this' id = Returns tex /\
    (forall other, other <> id ->
       m_strings this' !! other = m_strings this !! other /\
       has_stored this' other = has_stored this other /\
       get_stored this' other = get_stored this other) /\
    m_glyphs this' = m_glyphs this /\
    m_font this' = m_font this.
Proof.
  intros Hin Hr. simpl in Hin.
  repeat (destruct Hin as [Hin|Hin];
          [injection Hin as <- <-; now apply store_rendered_overwrites|]).
  destruct Hin.
Qed.

(** Each store function is [store_rendered] at its own rendering. *)
Lemma store_functions (id : hash_id) (renderer : Renderer) (str : string)
    (ustr : list unicode) (wrap : Z) (background : Color.color) :
  store_blended_utf8 _ _ render id str renderer
    = store_rendered id (blended_utf8 str) renderer /\
  store_blended_wrapped_utf8 _ _ render id str renderer wrap
    = store_rendered id (blended_wrapped_utf8 str wrap) renderer /\
  store_shaded_utf8 _ _ render id str renderer background
    = store_rendered id (shaded_utf8 str background) renderer /\
  store_solid_utf8 _ _ render id str renderer
    = store_rendered id (solid_utf8 str) renderer /\
  store_blended_latin1 _ _ render id str renderer
    = store_rendered id (blended_latin1 str) renderer /\
  store_blended_wrapped_latin1 _ _ render id str renderer wrap
    = store_rendered id (blended_wrapped_latin1 str wrap) renderer /\
  store_shaded_latin1 _ _ render id str renderer background
    = store_rendered id (shaded_latin1 str background) renderer /\
  store_solid_latin1 _ _ render id str renderer
    = store_rendered id (solid_latin1 str) renderer /\
  store_blended_unicode _ _ render id ustr renderer
    = store_rendered id (blended_unicode ustr) renderer /\
  store_blended_wrapped_unicode _ _ render id ustr renderer wrap
    = store_rendered id (blended_wrapped_unicode ustr wrap) renderer /\
  store_shaded_unicode _ _ render id ustr renderer background
    = store_rendered id (shaded_unicode ustr background) renderer /\
  store_solid_unicode _ _ render id ustr renderer
    = store_rendered id (solid_unicode ustr) renderer.
Proof. repeat split. Qed.

End Cache.



(** The string "score" stored with [store_blended_utf8] under the
    identifier 7, which held the texture 99. *)
Lemma store_overwrites_only_its_id_witness :
  numbered_render tt (blended_utf8 "score") letters = Returns 5 /\
  exists this',
    store_blended_utf8 Z unit numbered_render 7 "score" tt
      (mk_font_cache letters ∅ (<[7 := 99]> ∅)) = Returns this' /\
    has_stored this' 7 = true /\
    get_stored this' 7 = Returns 5 /\
    m_strings this' !! 7 = Some 5.
Proof.
  split; [reflexivity|].
  destruct (store_overwrites_only_its_id Z unit numbered_render 7 tt
              (mk_font_cache letters ∅ (<[7 := 99]> ∅)) "score" [] 0 Color.black
              (blended_utf8 "score")
              (store_blended_utf8 Z unit numbered_render 7 "score" tt
                 (mk_font_cache letters ∅ (<[7 := 99]> ∅)))
              5 (or_introl eq_refl) eq_refl)
    as (this' & H1 & H2 & H3 & _).
  exists this'. split; [exact H1|]. split; [exact H2|]. split; [exact H3|].
  unfold get_stored, map_at in H3. destruct (m_strings this' !! 7); congruence.
Defined.

(** With the numbered renderer every code point from 1 on is rendered. *)
Lemma numbered_renders (c : font_cache Z) (ch : unicode) :
  0 < ch ->
  (exists tex, create_glyph_texture (fun _ : unit => Color.black) numbered_glyph
                 numbered_texture c tt ch = Returns tex) /\
  (exists mtr, get_metrics letters ch = Some mtr).
Proof.
  intros H. unfold create_glyph_texture, numbered_glyph, surface_ctor, numbered_texture.
  destruct (Z.eqb_spec (1000 + ch) 0) as [E|_]; [lia|]. simpl. eauto.
Qed.

Lemma add_range_caches_the_provided_glyphs_witness :
  is_unicode 64 /\ is_unicode 67 /\
  exists this',
    add_range (fun _ : unit => Color.black) numbered_glyph numbered_texture tt 64 67
      (font_cache_ctor letters) = Some (Returns this') /\
    has this' 65 = true /\ has this' 66 = true.
Proof.
  assert (H64 : is_unicode 64) by (unfold is_unicode; lia).
  assert (H67 : is_unicode 67) by (unfold is_unicode; lia).
  split; [exact H64|]. split; [exact H67|].
  destruct (add_range_caches_the_provided_glyphs Z unit (fun _ => Color.black)
              numbered_glyph numbered_texture tt 64 67 (font_cache_ctor letters)
              H64 H67
              (fun ch Hch _ => numbered_renders (font_cache_ctor letters) ch
                                 ltac:(lia)))
    as (this' & E & _ & _ & P & _).
  exists this'. split; [exact E|].
  split; apply P; try reflexivity; lia.
Defined.

Lemma add_range_twice_witness :
  is_unicode 64 /\ is_unicode 67 /\
  add_range (fun _ : unit => Color.black) numbered_glyph numbered_texture tt 64 67
    (mk_font_cache letters
       (<[66 := mk_glyph_data 1066 (mk_glyph_metrics 0 8 0 12 9)]>
          (<[65 := mk_glyph_data 1065 (mk_glyph_metrics 0 8 0 12 9)]> ∅)) ∅)
  = Some (Returns (mk_font_cache letters
       (<[66 := mk_glyph_data 1066 (mk_glyph_metrics 0 8 0 12 9)]>
          (<[65 := mk_glyph_data 1065 (mk_glyph_metrics 0 8 0 12 9)]> ∅)) ∅)).
Proof.
  assert (H64 : is_unicode 64) by (unfold is_unicode; lia).
  assert (H67 : is_unicode 67) by (unfold is_unicode; lia).
  split; [exact H64|]. split; [exact H67|].
  exact (add_range_twice Z unit (fun _ => Color.black) numbered_glyph numbered_texture
           tt 64 67 (font_cache_ctor letters) _ H64 H67 eq_refl).
Defined.

Lemma add_range_of_empty_range_witness :
  70 <= 80 /\
  add_range (fun _ : unit => Color.black) numbered_glyph numbered_texture tt 80 70
    (font_cache_ctor letters) = Some (Returns (font_cache_ctor letters)).
Proof.
  assert (H : 70 <= 80) by lia.
  split; [exact H|].
  exact (proj1 (add_range_of_empty_range Z unit (fun _ => Color.black) numbered_glyph
                  numbered_texture tt 80 70 (font_cache_ctor letters) H)).
Defined.

Lemma add_latin1_caches_printable_latin1_witness :
  exists this',
    add_latin1 (fun _ : unit => Color.black) numbered_glyph numbered_texture tt
      (font_cache_ctor letters) = Some (Returns this') /\
    has this' 65 = true /\ has this' 90 = true /\
    m_glyphs this' !! 10 = None.
Proof.
  destruct (add_latin1_caches_printable_latin1 Z unit (fun _ => Color.black)
              numbered_glyph numbered_texture tt (font_cache_ctor letters)
              (fun ch Hch _ => numbered_renders (font_cache_ctor letters) ch
                                 ltac:(unfold printable_latin1 in Hch; lia)))
    as (this' & E & P & _ & O & _).
  exists this'. split; [exact E|].
  split; [|split].
  - apply P; [left; lia | reflexivity].
  - apply P; [left; lia | reflexivity].
  - rewrite O; [reflexivity|]. unfold printable_latin1. lia.
Defined.

Lemma add_glyph_failures_witness :
  has (font_cache_ctor letters : font_cache Z) 65 = false /\
  is_glyph_provided letters 65 = true /\
  add_glyph (fun _ : unit => Color.black) no_surface numbered_texture tt 65
    (font_cache_ctor letters) = Throws centurion_exception.
Proof.
  split; [reflexivity|]. split; [reflexivity|].
  exact (proj1 (add_glyph_failures Z unit (fun _ => Color.black) no_surface
                  numbered_texture tt 65 (font_cache_ctor letters) eq_refl eq_refl)
               eq_refl).
Defined.

End FontCacheFacts.

(** ** The surface *)

Module SurfaceFacts.

Import Surface.

Open Scope Z_scope.

(** *** Ownership *)

Lemma destroy_inv (this : Z) (mem mem1 : memory) :
  destroy this mem = Some mem1 ->
  exists p, objects mem !! this = Some p /\ objects mem1 = objects mem /\
            freed mem1 = if negb (p =? nullptr) then freed mem ++ [p] else freed mem.
Proof.
  unfold destroy. destruct (objects mem !! this) as [p|] eqn:E; [|discriminate].
  intros [= <-]. exists p. destruct (negb (p =? nullptr)); auto.
Qed.

(** What [destroy] frees was held, and is neither null nor freed before. *)
Lemma freed_by_destroy (this p : Z) (mem : memory) :
  sole_owners mem -> objects mem !! this = Some p ->
  List.NoDup (if negb (p =? nullptr) then freed mem ++ [p] else freed mem).
Proof.
  intros (_ & Hfree & Hnd) Hp. destruct (Z.eqb_spec p nullptr) as [->|Hn]; simpl; [exact Hnd|].
  apply List.NoDup_app; [exact Hnd | | ].
  - constructor; [intros [] | constructor].
  - intros q Hq [<-|[]]. revert Hq. apply Hfree. split; [exact Hn | eauto].
Qed.

Lemma in_freed_by_destroy (p q : Z) (l : list Z) :
  In q (if negb (p =? nullptr) then l ++ [p] else l) <->
  In q l \/ (q = p /\ p <> nullptr).
Proof.
  destruct (Z.eqb_spec p nullptr) as [->|Hn]; simpl.
  - intuition congruence.
  - rewrite in_app_iff. simpl. intuition congruence.
Qed.

Lemma move_assign_owners (this other : Z) (mem mem' : memory) :
  sole_owners mem -> move_assign this other mem = Some mem' ->
  sole_owners mem' /\
  forall p, (held mem' p \/ In p (freed mem')) <-> (held mem p \/ In p (freed mem)).
Proof.
  intros Hinv. unfold move_assign.
  destruct (Z.eqb_spec this other) as [->|Hne]; simpl.
  { intros [= <-]. split; [exact Hinv | tauto]. }
  unfold move. destruct (destroy this mem) as [mem1|] eqn:Hd; [|discriminate].
  destruct (destroy_inv _ _ _ Hd) as (p & Hp & Ho & Hf).
  rewrite Ho. destruct (objects mem !! other) as [q|] eqn:Hq; [|discriminate].
  intros [= <-]. pose proof (freed_by_destroy this p mem Hinv Hp) as Hnd.
  destruct Hinv as (Huniq & Hfree & _).
  assert (Hlook : forall a v,
            (<[other := nullptr]> (<[this := q]> (objects mem))) !! a = Some v ->
            (a = other /\ v = nullptr) \/ (a = this /\ v = q) \/
            (a <> other /\ a <> this /\ objects mem !! a = Some v)).
  { intros a v. destruct (decide (a = other)) as [->|Ha].
    - rewrite lookup_insert_eq. intros [= <-]. auto.
    - rewrite lookup_insert_ne by congruence.
      destruct (decide (a = this)) as [->|Ha'].
      + rewrite lookup_insert_eq. intros [= <-]. auto.
      + rewrite lookup_insert_ne by congruence. auto. }
  assert (Hthis : (<[other := nullptr]> (<[this := q]> (objects mem))) !! this = Some q).
  { rewrite lookup_insert_ne by congruence. apply lookup_insert_eq. }
  assert (Hkeep : forall a v, a <> other -> a <> this -> objects mem !! a = Some v ->
            (<[other := nullptr]> (<[this := q]> (objects mem))) !! a = Some v).
  { intros a v Ha Ha' E. now rewrite !lookup_insert_ne by congruence. }
  assert (Hheld : forall r,
            held (mk_memory (<[other := nullptr]> (<[this := q]> (objects mem))) (freed mem1)) r
            <-> held mem r /\ r <> p).
  { intros r. unfold held. simpl. split.
    - intros (Hr & a & Ha). destruct (Hlook a r Ha) as [[_ E] | [[Ea E] | (N1 & N2 & E)]].
      + congruence.
      + subst r. split; [split; eauto|]. intros E.
        apply Hne. symmetry. apply (Huniq other this q); congruence.
      + split; [split; eauto|]. intros E'. subst r. apply N2. now apply (Huniq a this p).
    - intros ((Hr & a & Ha) & Hrp). split; [exact Hr|].
      destruct (decide (a = other)) as [->|N1].
      + exists this. rewrite Hthis. congruence.
      + destruct (decide (a = this)) as [->|N2]; [congruence|]. exists a. now apply Hkeep. }
  split; [split; [|split]|]; simpl.
  - intros a b r Ha Hb Hr.
    destruct (Hlook a r Ha) as [[_ Ea] | [[Ea Er] | (A1 & A2 & EA)]]; [congruence| |];
      destruct (Hlook b r Hb) as [[_ Eb] | [[Eb Er'] | (B1 & B2 & EB)]]; try congruence.
    + exfalso. apply B1. subst r. now apply (Huniq b other q).
    + exfalso. apply A1. subst r. now apply (Huniq a other q).
    + now apply (Huniq a b r).
  - intros r Hr. apply Hheld in Hr. destruct Hr as [Hr Hrp]. rewrite Hf.
    rewrite in_freed_by_destroy. intros [Hin | [-> _]]; [|congruence].
    now apply (Hfree r).
  - rewrite Hf. exact Hnd.
  - intros r. rewrite Hheld, Hf, in_freed_by_destroy.
    assert (Hp' : p <> nullptr -> held mem p) by (intros; split; eauto).
    assert (Hn : held mem r -> r <> nullptr) by (intros [? _]; assumption).
    destruct (decide (r = p)) as [Hrp|Hrp]; [subst r|]; intuition congruence.
Qed.

Lemma surface_dtor_owners (this : Z) (mem mem' : memory) :
  sole_owners mem -> surface_dtor this mem = Some mem' ->
  sole_owners mem' /\
  forall p, (held mem' p \/ In p (freed mem')) <-> (held mem p \/ In p (freed mem)).
Proof.
  intros Hinv. unfold surface_dtor.
  destruct (destroy this mem) as [mem1|] eqn:Hd; [|discriminate].
  destruct (destroy_inv _ _ _ Hd) as (p & Hp & Ho & Hf).
  rewrite Ho. intros [= <-]. pose proof (freed_by_destroy this p mem Hinv Hp) as Hnd.
  destruct Hinv as (Huniq & Hfree & _).
  assert (Hheld : forall r,
            held (mk_memory (delete this (objects mem)) (freed mem1)) r
            <-> held mem r /\ r <> p).
  { intros r. unfold held. simpl. split.
    - intros (Hr & a & Ha). apply lookup_delete_Some in Ha. destruct Ha as [Na Ha].
      split; [split; eauto|]. intros ->. apply Na. symmetry. now apply (Huniq a this p).
    - intros ((Hr & a & Ha) & Hrp). split; [exact Hr|]. exists a.
      apply lookup_delete_Some. split; [congruence | exact Ha]. }
  split; [split; [|split]|]; simpl.
  - intros a b r Ha Hb Hr. apply lookup_delete_Some in Ha, Hb.
    now apply (Huniq a b r).
  - intros r Hr. apply Hheld in Hr. destruct Hr as [Hr Hrp]. rewrite Hf.
    rewrite in_freed_by_destroy. intros [Hin | [-> _]]; [|congruence].
    now apply (Hfree r).
  - rewrite Hf. exact Hnd.
  - intros r. rewrite Hheld, Hf, in_freed_by_destroy.
    assert (Hp' : p <> nullptr -> held mem p) by (intros; split; eauto).
    assert (Hn : held mem r -> r <> nullptr) by (intros [? _]; assumption).
    destruct (decide (r = p)) as [Hrp|Hrp]; [subst r|]; intuition congruence.
Qed.

Lemma perform_all_owners (ops : list operation) (mem mem' : memory) :
  sole_owners mem -> perform_all ops mem = Some mem' ->
  sole_owners mem' /\
  forall p, (held mem' p \/ In p (freed mem')) <-> (held mem p \/ In p (freed mem)).
Proof.
  revert mem. induction ops as [|o rest IH]; intros mem Hinv; simpl.
  - intros [= <-]. split; [exact Hinv | tauto].
  - destruct (perform o mem) as [mem1|] eqn:Ho; [|discriminate]. intros Hrest.
    assert (H1 : sole_owners mem1 /\
              forall p, (held mem1 p \/ In p (freed mem1)) <-> (held mem p \/ In p (freed mem))).
    { destruct o; simpl in Ho;
        [now apply (move_assign_owners this other) | now apply (surface_dtor_owners this)]. }
    destruct H1 as [Hinv1 Heq1]. destruct (IH mem1 Hinv1 Hrest) as [Hinv' Heq'].
    split; [exact Hinv'|]. intros p. rewrite Heq'. apply Heq1.
Qed.

(** X19. Move assignments and destructions, in any number and order, keep
    every native surface with one owner: no two live objects point to the
    same surface, no live object points to a freed surface, and no surface
    is given to [SDL_FreeSurface] twice. *)
Theorem move_and_destruction_keep_one_owner (ops : list operation) (mem mem' : memory) :
  sole_owners mem -> perform_all ops mem = Some mem' -> sole_owners mem'.
Proof. intros Hinv Hrun. exact (proj1 (perform_all_owners ops mem mem' Hinv Hrun)). Qed.

(** X20. When the last surface object is gone, the surfaces given to
    [SDL_FreeSurface] are those the objects held at the start, each of them
    once. *)
Theorem every_surface_freed_exactly_once (ops : list operation) (mem mem' : memory) :
  sole_owners mem -> freed mem = [] ->
  perform_all ops mem = Some mem' -> objects mem' = empty ->
  List.NoDup (freed mem') /\ forall p, In p (freed mem') <-> held mem p.
Proof.
  intros Hinv Hnone Hrun Hgone.
  destruct (perform_all_owners ops mem mem' Hinv Hrun) as [(_ & _ & Hnd) Heq].
  split; [exact Hnd|]. intros p. specialize (Heq p). rewrite Hnone in Heq. simpl in Heq.
  assert (Hno : ~ held mem' p).
  { intros (_ & a & Ha). rewrite Hgone in Ha. now rewrite lookup_empty in Ha. }
  tauto.
Qed.

(** *** Pixels *)

(** [int] arithmetic: a result that fits is not changed by the wrap-around,
    and a result that is not negative is not made larger by it. *)
Lemma wrap_fits (z : Z) : is_int z -> wrap z = z.
Proof.
  unfold is_int, int_max, wrap. intros Hz.
  rewrite Z.mod_small by lia. lia.
Qed.

Lemma wrap_le (z : Z) : 0 <= z -> wrap z <= z.
Proof.
  unfold wrap. intros Hz.
  pose proof (Z.mod_le (z + 2147483648) 4294967296 ltac:(lia) ltac:(lia)). lia.
Qed.

Lemma quot_4_nonneg (p : Z) : 0 <= p -> 0 <= p ÷ 4.
Proof. intros Hp. apply Z.quot_pos; lia. Qed.

Section Pixels.

Variables width height : Z.
Variable must_lock : bool.
Variable lock_result : Z.
Variable SDL_MapRGBA : Z -> Z -> Z -> Z -> Z.

Abbreviation in_bounds := (in_bounds width height).
Abbreviation nPixels := (nPixels height).
Abbreviation pixel_index := (pixel_index width).
Abbreviation set_pixel := (set_pixel width height must_lock lock_result SDL_MapRGBA).

Lemma in_bounds_iff (point : point_i) :
  in_bounds point = true <-> 0 <= x point < width /\ 0 <= y point < height.
Proof.
  unfold Surface.in_bounds. rewrite negb_true_iff, !orb_false_iff, !Z.ltb_ge, !Z.geb_leb, !Z.leb_gt.
  lia.
Qed.

(** The pixel value [set_pixel] writes. *)
Abbreviation value_of c :=
  (SDL_MapRGBA (Color.red c) (Color.green c) (Color.blue c) (Color.alpha c)).

(** [nPixels] never exceeds the number of [u32] that the rows of the
    surface hold, also when the product overflows. *)
Lemma nPixels_le (s : SDL_Surface) :
  0 <= pitch s -> 0 <= height -> nPixels s <= (pitch s ÷ 4) * height.
Proof.
  intros Hp Hh. unfold Surface.nPixels, int_mul. apply wrap_le.
  pose proof (quot_4_nonneg (pitch s) Hp). nia.
Qed.


(** The index of a pixel in bounds of a surface whose [width * height] fits
    into an [int] is [y * width + x], without wrap-around. *)
Lemma pixel_index_fits (pixel : point_i) :
  in_bounds pixel = true -> width * height <= int_max ->
  pixel_index pixel = y pixel * width + x pixel /\
  0 <= pixel_index pixel < width * height.
Proof.
  rewrite in_bounds_iff. intros [Hx Hy] Hfit.
  assert (Hyw : 0 <= y pixel * width <= y pixel * width + x pixel) by nia.
  assert (Hlt : y pixel * width + x pixel < width * height) by nia.
  unfold Surface.pixel_index, int_add, int_mul, int_max in *.
  rewrite (wrap_fits (y pixel * width)) by (unfold is_int, int_max; lia).
  rewrite wrap_fits by (unfold is_int, int_max; lia). lia.
Qed.





(** X23. Where a row has fewer than [width] pixels ([pitch / 4 < width]),
    as on a surface with less than four bytes a pixel, and
    [width * height] fits into an [int], [set_pixel] drops the last pixel
    of the surface, in bounds though it is: the pixel array stays as it
    was. *)
Theorem set_pixel_drops_pixels_of_narrow_rows (c : Color.color) (s : SDL_Surface) :
  0 < width -> 0 < height -> 0 <= pitch s -> pitch s ÷ 4 < width ->
  width * height <= int_max ->
  in_bounds (mk_point_i (width - 1) (height - 1)) = true /\
  exists s',
    set_pixel (mk_point_i (width - 1) (height - 1)) c s = Some s' /\
    pixels s' = pixels s.
Proof.
  intros Hw Hh Hp Hrow Hfit.
  assert (Hin : in_bounds (mk_point_i (width - 1) (height - 1)) = true)
    by (apply in_bounds_iff; simpl; lia).
  split; [exact Hin|].
  pose proof (quot_4_nonneg (pitch s) Hp) as Hq.
  destruct (pixel_index_fits _ Hin Hfit) as [Ei _]. simpl in Ei.
  pose proof (nPixels_le s Hp ltac:(lia)) as Hn.
  assert (Hi : nPixels s <= pixel_index (mk_point_i (width - 1) (height - 1))).
  { rewrite Ei. nia. }
  apply Z.ltb_ge in Hi.
  assert (Hcall : forall k, nPixels (call k s) = nPixels s) by reflexivity.
  unfold Surface.set_pixel. rewrite Hin. cbn [negb]. unfold lock, unlock.
  destruct must_lock.
  - destruct (lock_result =? 0); cbn [negb]; [|eexists; split; reflexivity].
    rewrite Hcall, Hi, andb_false_r. eexists; split; reflexivity.
  - cbn [negb]. rewrite Hi, andb_false_r. eexists; split; reflexivity.
Qed.

(** X24. [set_pixel] locks only for a pixel in bounds of a surface that
    must be locked, and unlocks exactly when that lock was granted: the
    calls it adds are none, the refused lock alone, or the lock followed
    by the unlock. *)
Theorem set_pixel_releases_its_lock (pixel : point_i) (c : Color.color) (s s' : SDL_Surface) :
  set_pixel pixel c s = Some s' ->
  calls s' = calls s ++
    (if in_bounds pixel && must_lock then
       if lock_result =? 0 then [SDL_LockSurface; SDL_UnlockSurface] else [SDL_LockSurface]
     else []).
Proof.
  unfold Surface.set_pixel, lock, unlock, write, call.
  destruct (in_bounds pixel); simpl; [|intros [= <-]; now rewrite app_nil_r].
  destruct must_lock; simpl.
  - destruct (lock_result =? 0); simpl; [|intros [= <-]; reflexivity].
    destruct (_ && _); simpl.
    + destruct (_ && _); simpl; [|discriminate]. intros [= <-]. simpl.
      now rewrite <- app_assoc.
    + intros [= <-]. simpl. now rewrite <- app_assoc.
  - destruct (_ && _); simpl.
    + destruct (_ && _); simpl; [|discriminate]. intros [= <-]. simpl.
      now rewrite app_nil_r.
    + intros [= <-]. now rewrite app_nil_r.
Qed.

End Pixels.

Lemma two_surfaces_owned : sole_owners two_surfaces.
Proof.
  unfold sole_owners, two_surfaces, held. simpl. split; [|split].
  - intros this other p H1 H2 Hp.
    apply lookup_insert_Some in H1, H2.
    destruct H1 as [[<- <-] | [N1 H1]], H2 as [[<- E2] | [N2 H2]]; try reflexivity;
      try (apply lookup_insert_Some in H1; destruct H1 as [[<- <-] | [N1' H1]]);
      try (apply lookup_insert_Some in H2; destruct H2 as [[<- E2'] | [N2' H2]]);
      try congruence; try (now rewrite lookup_empty in H1); try (now rewrite lookup_empty in H2).
  - intros p _ [].
  - constructor.
Qed.

Lemma move_and_destruction_keep_one_owner_witness :
  sole_owners two_surfaces /\
  perform_all [do_move_assign 1 2; do_dtor 2; do_dtor 1] two_surfaces
    = Some (mk_memory empty [10; 20]) /\
  sole_owners (mk_memory empty [10; 20]).
Proof.
  assert (Hrun : perform_all [do_move_assign 1 2; do_dtor 2; do_dtor 1] two_surfaces
                 = Some (mk_memory empty [10; 20])) by (vm_compute; reflexivity).
  split; [exact two_surfaces_owned|]. split; [exact Hrun|].
  exact (move_and_destruction_keep_one_owner _ _ _ two_surfaces_owned Hrun).
Defined.

Lemma every_surface_freed_exactly_once_witness :
  sole_owners two_surfaces /\ freed two_surfaces = [] /\
  perform_all [do_move_assign 2 1; do_move_assign 2 2; do_dtor 1; do_dtor 2] two_surfaces
    = Some (mk_memory empty [20; 10]) /\
  objects (mk_memory empty [20; 10]) = empty /\
  List.NoDup (freed (mk_memory empty [20; 10])) /\
  forall p, In p (freed (mk_memory empty [20; 10])) <-> held two_surfaces p.
Proof.
  assert (Hrun : perform_all [do_move_assign 2 1; do_move_assign 2 2; do_dtor 1; do_dtor 2]
                   two_surfaces
                 = Some (mk_memory empty [20; 10])) by (vm_compute; reflexivity).
  split; [exact two_surfaces_owned|]. split; [reflexivity|]. split; [exact Hrun|].
  split; [reflexivity|].
  exact (every_surface_freed_exactly_once _ _ _ two_surfaces_owned eq_refl Hrun eq_refl).
Defined.



Lemma set_pixel_drops_pixels_of_narrow_rows_witness :
  0 < 4 /\ 0 < 1 /\ 0 <= pitch narrow /\ pitch narrow ÷ 4 < 4 /\ 4 * 1 <= int_max /\
  in_bounds 4 1 (mk_point_i (4 - 1) (1 - 1)) = true /\
  exists s',
    set_pixel 4 1 false 0 rgba8888 (mk_point_i (4 - 1) (1 - 1)) Color.crimson narrow
      = Some s' /\
    pixels s' = pixels narrow.
Proof.
  assert (Hw : 0 < 4) by lia. assert (Hh : 0 < 1) by lia.
  assert (Hp : 0 <= pitch narrow) by (simpl; lia).
  assert (Hrow : pitch narrow ÷ 4 < 4) by (vm_compute; reflexivity).
  assert (Hfit : 4 * 1 <= int_max) by (vm_compute; discriminate).
  split; [exact Hw|]. split; [exact Hh|]. split; [exact Hp|]. split; [exact Hrow|].
  split; [exact Hfit|].
  exact (set_pixel_drops_pixels_of_narrow_rows 4 1 false 0 rgba8888 Color.crimson narrow
           Hw Hh Hp Hrow Hfit).
Defined.

(** [int] overflow in [set_pixel].  With 65536 rows of 65536 pixels
    [nPixels] wraps to 0 and no pixel is written; with rows of 131072
    pixels the index of the pixel (0, 32768) wraps to 0 and the first
    entry is written. *)
Example set_pixel_overflow :
  nPixels 65536 (mk_SDL_Surface 262144 [0; 0] []) = 0 /\
  set_pixel 65536 65536 false 0 rgba8888 (mk_point_i 1 0) Color.crimson
    (mk_SDL_Surface 262144 [0; 0] []) = Some (mk_SDL_Surface 262144 [0; 0] []) /\
  pixel_index 131072 (mk_point_i 0 32768) = 0 /\
  set_pixel 131072 32769 false 0 rgba8888 (mk_point_i 0 32768) Color.crimson
    (mk_SDL_Surface 16384 [0; 0] []) = Some (mk_SDL_Surface 16384 [3692313855; 0] []).
Proof. vm_compute. repeat split. Qed.

Lemma set_pixel_releases_its_lock_witness :
  set_pixel 2 2 true 0 rgba8888 (mk_point_i 1 1) Color.crimson square
    = Some (mk_SDL_Surface 8 [0; 0; 0; 3692313855] [SDL_LockSurface; SDL_UnlockSurface]) /\
  calls (mk_SDL_Surface 8 [0; 0; 0; 3692313855] [SDL_LockSurface; SDL_UnlockSurface])
    = calls square ++
        (if in_bounds 2 2 (mk_point_i 1 1) && true then
           if 0 =? 0 then [SDL_LockSurface; SDL_UnlockSurface] else [SDL_LockSurface]
         else []).
Proof.
  assert (Hrun : set_pixel 2 2 true 0 rgba8888 (mk_point_i 1 1) Color.crimson square
                 = Some (mk_SDL_Surface 8 [0; 0; 0; 3692313855]
                           [SDL_LockSurface; SDL_UnlockSurface])) by (vm_compute; reflexivity).
  split; [exact Hrun|].
  exact (set_pixel_releases_its_lock 2 2 true 0 rgba8888 (mk_point_i 1 1) Color.crimson
           square _ Hrun).
Defined.

End SurfaceFacts.

(** ** The semaphore *)

Module SemaphoreFacts.

Import Semaphore.

Open Scope Z_scope.

(** The assertions of TEST(Semaphore, Acquire), TEST(Semaphore, TryAcquire),
    TEST(Semaphore, Release) and TEST(Semaphore, Tokens). *)
Example test_Semaphore :
  (exists s, acquire (semaphore_ctor 1) = Some (true, s) /\ tokens s = 0 /\
             fst (release s) = true /\ tokens (snd (release s)) = 1) /\
  fst (try_acquire (semaphore_ctor 0)) = timed_out /\
  fst (try_acquire (snd (release (semaphore_ctor 0)))) = success /\
  tokens (snd (release (semaphore_ctor 0))) = 1 /\
  tokens (semaphore_ctor 32) = 32.
Proof. split; [eexists|]; repeat split. Qed.

(** C7. A semaphore constructed with [n] tokens has [n] tokens; an acquire
    that succeeds leaves one token less, and it does succeed when there is
    a token; a release succeeds and leaves one token more. *)
Theorem tokens_count_acquire_release (n : Z) (s : semaphore) :
  tokens (semaphore_ctor n) = n /\
  (forall s', acquire s = Some (true, s') -> tokens s' = tokens s - 1) /\
  (0 < tokens s -> exists s', acquire s = Some (true, s') /\ tokens s' = tokens s - 1) /\
  (forall s', fst (try_acquire s) = success -> snd (try_acquire s) = s' ->
              tokens s' = tokens s - 1) /\
  fst (release s) = true /\
  tokens (snd (release s)) = tokens s + 1.
Proof.
  unfold tokens, acquire, try_acquire, release, semaphore_ctor. simpl.
  split; [reflexivity|]. split; [|split; [|split]].
  - intros s' H. destruct (0 <? count s); inversion H. reflexivity.
  - intros H. apply Z.ltb_lt in H. rewrite H. eexists. split; reflexivity.
  - intros s' H <-. destruct (0 <? count s); [reflexivity | discriminate].
  - split; reflexivity.
Qed.

End SemaphoreFacts.

(** ** Rectangles *)

Module RectFacts.

Import Rect.

Open Scope Q_scope.

(** The assertions of TEST(Rect, GetUnion), in binary32. *)
Example test_GetUnion :
  eq_rect (get_union binary32 rect_default rect_default) rect_default = true /\
  eq_rect (get_union binary32 rect_default fst_) fst_ = true /\
  eq_rect (get_union binary32 fst_ rect_default) fst_ = true /\
  has_area (get_union binary32 fst_ snd_) = true /\
  x (get_union binary32 fst_ snd_) == 10 /\
  y (get_union binary32 fst_ snd_) == 10 /\
  width (get_union binary32 fst_ snd_) == 80 /\
  height (get_union binary32 fst_ snd_) == 80 /\
  eq_rect (get_union binary32 fst_ snd_) (get_union binary32 snd_ fst_) = true /\
  eq_rect (get_union binary32 snd_ fst_) (get_union binary32 fst_ snd_) = true.
Proof. vm_compute. repeat split. Qed.

(** Rounding at work: the union of two rectangles with area, both in
    binary32, whose width [2^-30 + 1] rounds to 1; its right edge falls
    short of the right edge of the second rectangle. *)
Example get_union_rounds :
  max_x binary32 (mk_rect (mk_point 0 0) (mk_area (1 # 1073741824) 1)) == 1 # 1073741824 /\
  max_x binary32 (get_union binary32 (mk_rect (mk_point (-1) 0) (mk_area (1 # 2) 1))
                                     (mk_rect (mk_point 0 0) (mk_area (1 # 1073741824) 1)))
    == 0.
Proof. vm_compute. repeat split. Qed.





Section Rounded.

Variable rnd : Q -> Q.

(** Floats that compare equal have the same sum and the same
    difference. *)
Lemma fadd_compat (a a' b b' : Q) : a == a' -> b == b' -> fadd rnd a b = fadd rnd a' b'.
Proof.
  intros Ea Eb. unfold fadd. f_equal. apply Qred_complete. now rewrite Ea, Eb.
Qed.




End Rounded.




End RectFacts.
